(** * transcribe.py: download-transcribe pipeline, shallow embedding

    The development follows [transcribe.py]: the text functions
    ([remove_pagination_breaks], the heuristic [sophisticated_sentence_splitter],
    [clean_filename]), the collision-avoiding name probe of [download_audio],
    the segment loop of [compute_transcript_with_whisper_from_audio_func] and
    the gate-protected task body [download_and_transcribe] of
    [process_video_or_playlist].

    Text is a list of 8-bit characters, read as the code points U+0000..U+00FF
    of a Python [str]; the character classes below are the ones Python's [re]
    and [str] methods use on that range. [clean_filename] is given a second
    time on a wider alphabet (module [Wide]), because [str.lower] behaves
    differently beyond U+00FF; the titles of the videos in the pipeline are
    texts of U+0000..U+00FF. *)

From Stdlib Require Import Ascii String.
From stdpp Require Import gmap strings list pretty.

Local Open Scope list_scope.
Local Open Scope N_scope.

(** ** Characters and the classes used by the regular expressions *)

Module Chars.

(** A Python [str]. *)
Abbreviation str := (list ascii).

Definition lit (s : string) : str := list_ascii_of_string s.

Definition code (c : ascii) : N := N_of_ascii c.

Definition in_range (lo hi : N) (c : ascii) : bool :=
  (lo <=? code c) && (code c <=? hi).

Definition is_char (k : N) (c : ascii) : bool := code c =? k.

Definition nl : ascii := ascii_of_N 10.
Definition space : ascii := ascii_of_N 32.
Definition hyphen : ascii := ascii_of_N 45.
Definition period : ascii := ascii_of_N 46.
Definition underscore : ascii := ascii_of_N 95.
Definition dquote : ascii := ascii_of_N 34.
Definition slash : ascii := ascii_of_N 47.
Definition backslash : ascii := ascii_of_N 92.

(** [[a-z]], [[A-Z]], [[0-9]]: literal ranges of the patterns. *)
Definition az (c : ascii) : bool := in_range 97 122 c.
Definition AZ (c : ascii) : bool := in_range 65 90 c.
Definition digit09 (c : ascii) : bool := in_range 48 57 c.

(** [\s] of a [str] pattern, which is also what [str.strip] removes:
    TAB..CR, FS..US, SPACE, NEL and NBSP. *)
Definition re_space (c : ascii) : bool :=
  in_range 9 13 c || in_range 28 32 c || is_char 133 c || is_char 160 c.

(** [\d] of a [str] pattern: the decimal digits. *)
Definition re_digit (c : ascii) : bool := digit09 c.

(** [\w] of a [str] pattern: alphanumeric characters and the underscore. *)
Definition re_word (c : ascii) : bool :=
  digit09 c || AZ c || az c || is_char 95 c
  || is_char 170 c || is_char 178 c || is_char 179 c || is_char 181 c
  || is_char 185 c || is_char 186 c || in_range 188 190 c
  || in_range 192 214 c || in_range 216 246 c || in_range 248 255 c.

(** [str.lower] on one character. *)
Definition lower_char (c : ascii) : ascii :=
  if AZ c || in_range 192 214 c || in_range 216 222 c
  then ascii_of_N (code c + 32) else c.

Definition lower (s : str) : str := map lower_char s.

(** [str.strip()]: whitespace removed at both ends. *)
Fixpoint lstrip (s : str) : str :=
  match s with
  | c :: r => if re_space c then lstrip r else s
  | [] => []
  end.

Definition rstrip (s : str) : str := rev (lstrip (rev s)).

Definition strip (s : str) : str := rstrip (lstrip s).

(** [s.count(c)]. *)
Definition count (k : ascii) (s : str) : nat :=
  length (filter (λ c, c = k) s).

(** Truth value of a [str]: the empty string is false. *)
Definition truthy (s : str) : bool :=
  match s with [] => false | _ => true end.

(** The text with every whitespace character removed: what is left of a
    text under whitespace normalization. *)
Definition without_space (s : str) : str :=
  filter (λ c, re_space c = false) s.

Definition all_space (s : str) : Prop := Forall (λ c, re_space c = true) s.

Definition all_word (s : str) : Prop := Forall (λ c, re_word c = true) s.

End Chars.
Import Chars.

(** ** remove_pagination_breaks *)

(** Does the text start with a character of the class? *)
Definition starts_with (p : ascii → bool) (s : str) : bool :=
  match s with c :: _ => p c | [] => false end.

(** [re.sub(r'-(\n)(?=[a-z])', '', text)]: the match is the hyphen and the
    line break; the lowercase letter is only looked at. *)
Fixpoint dehyphenate (s : str) : str :=
  match s with
  | [] => []
  | c :: r =>
      match r with
      | n :: r' =>
          if is_char 45 c && is_char 10 n && starts_with az r'
          then dehyphenate r'
          else c :: dehyphenate r
      | [] => [c]
      end
  end.

(** [(?<=\w)(?<![.?!-]|\d)]: the two lookbehinds on the previous character;
    at the start of the text there is none and [(?<=\w)] fails. *)
Definition wrap_lookbehind (prev : option ascii) : bool :=
  match prev with
  | None => false
  | Some p =>
      re_word p
      && negb (is_char 46 p || is_char 63 p || is_char 33 p || is_char 45 p
               || re_digit p)
  end.

(** [(?![\nA-Z])]: holds at the end of the text. *)
Definition wrap_lookahead (r : str) : bool :=
  negb (starts_with (λ c, is_char 10 c || AZ c) r).

(** [re.sub(r'(?<=\w)(?<![.?!-]|\d)\n(?![\nA-Z])', ' ', text)]; [prev] is the
    character before [s] in the text being scanned. *)
Fixpoint join_wrapped (prev : option ascii) (s : str) : str :=
  match s with
  | [] => []
  | c :: r =>
      (if is_char 10 c && wrap_lookbehind prev && wrap_lookahead r
       then space else c) :: join_wrapped (Some c) r
  end.

Definition remove_pagination_breaks (text : str) : str :=
  let text := dehyphenate text in
  let text := join_wrapped None text in
  text.

(** ** The heuristic sophisticated_sentence_splitter *)

Module Splitter.

(** Is [p] a prefix of [s]? *)
Fixpoint has_prefix (p s : str) : bool :=
  match p, s with
  | [], _ => true
  | a :: p', b :: s' => bool_decide (a = b) && has_prefix p' s'
  | _ :: _, [] => false
  end.

(** [(com|net|org|io)\s] at the head of [s]. *)
Definition tld_then_space (s : str) : bool :=
  (has_prefix (lit "com") s && starts_with re_space (drop 3 s))
  || (has_prefix (lit "net") s && starts_with re_space (drop 3 s))
  || (has_prefix (lit "org") s && starts_with re_space (drop 3 s))
  || (has_prefix (lit "io") s && starts_with re_space (drop 2 s)).

(** [\s*(com|net|org|io)\s] at the head of [s]: a domain token starts with
    a character that is not whitespace, so [\s*] can only stop at the end of
    the whitespace run. *)
Definition lookahead_tld (s : str) : bool := tld_then_space (lstrip s).

(** Length of the whitespace run at the head of [s] (greedy [\s+]). *)
Fixpoint space_run (s : str) : nat :=
  match s with
  | c :: r => if re_space c then S (space_run r) else O
  | [] => O
  end.

(** [\.(?!\s*(com|net|org|io)\s)(?![0-9])] *)
Definition alt_period (s : str) : option nat :=
  match s with
  | c :: r =>
      if is_char 46 c && negb (lookahead_tld r) && negb (starts_with digit09 r)
      then Some 1%nat else None
  | [] => None
  end.

(** [[.!?]\s+] *)
Definition alt_punct_space (s : str) : option nat :=
  match s with
  | c :: r =>
      if (is_char 46 c || is_char 33 c || is_char 63 c)
         && starts_with re_space r
      then Some (S (space_run r)) else None
  | [] => None
  end.

(** [\.\.\.(?=\s)] *)
Definition alt_ellipsis (s : str) : option nat :=
  if has_prefix (lit "...") s && starts_with re_space (drop 3 s)
  then Some 3%nat else None.

(** The whole pattern at the head of [s]: the alternatives are tried in the
    order they are written, the result is the length of the match. *)
Definition match_at (s : str) : option nat :=
  match alt_period s with
  | Some n => Some n
  | None =>
      match alt_punct_space s with
      | Some n => Some n
      | None => alt_ellipsis s
      end
  end.

(** What the scan of [re.split] sees: the text between two matches, and the
    matches. *)
Inductive chunk :=
| Between (s : str)
| Matched (s : str).

Definition chunk_text (c : chunk) : str :=
  match c with Between s | Matched s => s end.

(** Leftmost non-overlapping matches; [cur] is the text since the last
    match, reversed. A match has at least one character, so a fuel of one
    more than the length of the text is never used up. *)
Fixpoint scan (fuel : nat) (cur : str) (s : str) : list chunk :=
  match fuel with
  | O => [Between (rev cur ++ s)]
  | S fuel =>
      match s with
      | [] => [Between (rev cur)]
      | c :: r =>
          match match_at s with
          | Some n => Between (rev cur) :: Matched (take n s)
                        :: scan fuel [] (drop n s)
          | None => scan fuel (c :: cur) r
          end
      end
  end.

(** [re.split(pattern, text)]: the pattern has one group, inside a negative
    lookahead, so it never takes part in a match and every match
    contributes a [None] to the result. *)
Definition find_matches (text : str) : list chunk :=
  scan (S (length text)) [] text.

(** What a chunk contributes to the result of [re.split]: the text between
    two matches as it is, a match the value of its group, [None]. *)
Definition split_item (ch : chunk) : option str :=
  match ch with Between s => Some s | Matched _ => None end.

Definition re_split (text : str) : list (option str) :=
  map split_item (find_matches text).

(** The strings of a [re.split] result, without the [None]s. *)
Fixpoint strings_of (l : list (option str)) : list str :=
  match l with
  | [] => []
  | Some s :: rest => s :: strings_of rest
  | None :: rest => strings_of rest
  end.

(** The texts of the matches found by the scan. *)
Fixpoint matched_of (l : list chunk) : list str :=
  match l with
  | [] => []
  | Matched s :: rest => s :: matched_of rest
  | Between _ :: rest => matched_of rest
  end.

(** A character a match can be made of: a period, an exclamation mark, a
    question mark or whitespace. *)
Definition is_delimiter (c : ascii) : bool :=
  is_char 46 c || is_char 33 c || is_char 63 c || re_space c.

(** The loop over [sentences], with [refined_sentences] and
    [temp_sentence] as accumulators. *)
Fixpoint merge_loop (sentences : list (option str))
    (refined_sentences : list str) (temp_sentence : str) : list str * str :=
  match sentences with
  | [] => (refined_sentences, temp_sentence)
  | None :: rest => merge_loop rest refined_sentences temp_sentence
  | Some sentence :: rest =>
      let temp_sentence := temp_sentence ++ sentence in
      if Nat.even (count dquote temp_sentence)
      then merge_loop rest (refined_sentences ++ [strip temp_sentence]) []
      else merge_loop rest refined_sentences temp_sentence
  end.

(** [[s.strip() for s in refined_sentences if s.strip()]] *)
Definition keep_nonblank (refined_sentences : list str) : list str :=
  map strip (filter (λ s, truthy (strip s)) refined_sentences).

Definition sophisticated_sentence_splitter (text : str) : list str :=
  let text := remove_pagination_breaks text in
  let sentences := re_split text in
  let '(refined_sentences, temp_sentence) := merge_loop sentences [] [] in
  let refined_sentences :=
    if truthy temp_sentence
    then refined_sentences ++ [strip temp_sentence]
    else refined_sentences in
  keep_nonblank refined_sentences.

(** A string with an even number of double quotes. *)
Definition balanced (s : str) : Prop := Nat.even (count dquote s) = true.

End Splitter.
Import Splitter.

(** ** clean_filename *)

(** [re.sub('[^\w\s-]', '', title)] *)
Definition keeps (c : ascii) : bool :=
  re_word c || re_space c || is_char 45 c.

Definition strip_specials (title : str) : str := filter (λ c, keeps c) title.

(** [[-\s]]: the characters a run to collapse is made of. *)
Definition is_sep (c : ascii) : bool := is_char 45 c || re_space c.

(** [re.sub('[-\s]+', '_', title)]; [in_run] tells that the previous
    character already belongs to the run being replaced. *)
Fixpoint collapse_runs (in_run : bool) (s : str) : str :=
  match s with
  | [] => []
  | c :: r =>
      if is_sep c
      then (if in_run then collapse_runs true r
            else underscore :: collapse_runs true r)
      else c :: collapse_runs false r
  end.

(** The value [clean_filename] returns. The function also prints two
    progress lines, the title as given and the title after the first
    substitution (lines 86 and 88); they are no error reports and are left
    out. *)
Definition clean_filename (title : str) : str :=
  let title := strip_specials title in
  lower (strip (collapse_runs false title)).

(** ** clean_filename on titles beyond U+00FF

    [str.lower] is no map of characters: it can give back more characters
    than it got. Two code points more than U+0000..U+00FF are enough to see
    what that does to [clean_filename]: U+0130, the capital I with a dot
    above, a letter whose lower-case form is the two characters i and U+0307;
    and U+0307 itself, the combining dot above, a mark, which is no word
    character and no whitespace and is its own lower-case form. The
    definitions of this module are those of [clean_filename] above, on the
    alphabet with these two code points added. *)

Module Wide.

Inductive uchar :=
| Latin (c : ascii)      (* U+0000..U+00FF *)
| CapitalIDot            (* U+0130 *)
| CombiningDot.          (* U+0307 *)

(** A Python [str] over the wider alphabet. *)
Abbreviation ustr := (list uchar).

(** A text of U+0000..U+00FF, read in the wider alphabet. *)
Definition embed (s : str) : ustr := map Latin s.

Definition is_latin (u : uchar) : bool :=
  match u with Latin _ => true | _ => false end.

(** The text has no code point beyond U+00FF. *)
Definition latin1 (title : ustr) : Prop := Forall (λ u, is_latin u = true) title.

(** [\w], [\s] and the hyphen. *)
Definition re_word (u : uchar) : bool :=
  match u with
  | Latin c => Chars.re_word c
  | CapitalIDot => true
  | CombiningDot => false
  end.

Definition re_space (u : uchar) : bool :=
  match u with Latin c => Chars.re_space c | _ => false end.

Definition is_hyphen (u : uchar) : bool :=
  match u with Latin c => is_char 45 c | _ => false end.

(** [re.sub('[^\w\s-]', '', title)] *)
Definition keeps (u : uchar) : bool := re_word u || re_space u || is_hyphen u.

Definition strip_specials (title : ustr) : ustr := filter (λ u, keeps u) title.

(** [[-\s]] *)
Definition is_sep (u : uchar) : bool := is_hyphen u || re_space u.

(** [re.sub('[-\s]+', '_', title)] *)
Fixpoint collapse_runs (in_run : bool) (s : ustr) : ustr :=
  match s with
  | [] => []
  | u :: r =>
      if is_sep u
      then (if in_run then collapse_runs true r
            else Latin underscore :: collapse_runs true r)
      else u :: collapse_runs false r
  end.

(** What [str.lower] makes of one character. *)
Definition lower_char (u : uchar) : ustr :=
  match u with
  | Latin c => [Latin (Chars.lower_char c)]
  | CapitalIDot => [Latin (ascii_of_N 105); CombiningDot]
  | CombiningDot => [CombiningDot]
  end.

Definition lower (s : ustr) : ustr := concat (map lower_char s).

Fixpoint lstrip (s : ustr) : ustr :=
  match s with
  | u :: r => if re_space u then lstrip r else s
  | [] => []
  end.

Definition rstrip (s : ustr) : ustr := rev (lstrip (rev s)).

Definition strip (s : ustr) : ustr := rstrip (lstrip s).

Definition clean_filename (title : ustr) : ustr :=
  let title := strip_specials title in
  lower (strip (collapse_runs false title)).

End Wide.

(** ** Effects: files, error reports, exceptions *)

(** An exception object; [str(e)] is its message. *)
Inductive exn :=
| ValueError (msg : str)
| Exception (msg : str).

Definition exn_str (e : exn) : str :=
  match e with ValueError msg | Exception msg => msg end.

(** How a call ends. *)
Inductive outcome (A : Type) :=
| Return (a : A)
| Raise (e : exn).
Arguments Return {A} a.
Arguments Raise {A} e.

(** The part of the outside world the pipeline changes: the regular files by
    path with their content, and [reports], the error reports the pipeline
    prints on standard output (lines 109 and 197), in order. The progress
    messages (lines 86, 88, 128 to 147, 177 and 183) go to standard output
    too; they are left out, so [reports] is not all that is printed. *)
Record world := World {
  files : gmap str str;
  reports : list str;
}.

Definition exists_path (w : world) (path : str) : bool :=
  bool_decide (is_Some (files w !! path)).

Definition write_file (path content : str) (w : world) : world :=
  World (<[path := content]> (files w)) (reports w).

Definition print (line : str) (w : world) : world :=
  World (files w) (reports w ++ [line]).

(** [os.path.join(dir, name)] for a relative [name]. *)
Definition path_join (dir name : str) : str := dir ++ slash :: name.

(** ** download_audio *)

Module Acquirer.

(** An audio stream of the provider: [stream.download] either writes the
    file (with this content) and returns its path, or raises. *)
Record stream := Stream { download : outcome str }.

(** A video handle: its title, what
    [video.streams.filter(only_audio=True).first()] gives, and what reading
    [video.title] raises when the provider cannot give the title ([None] when
    the title can be read; [title] is then what is read, every time). *)
Record video := Video {
  title : str;
  first_audio_stream : outcome (option stream);
  title_error : option exn;
}.

Definition audio_dir : str := lit "downloaded_audio".

Definition mp3 (filename : str) : str :=
  path_join audio_dir (filename ++ lit ".mp3").

(** [f"{base_filename}_{counter}"] *)
Definition suffixed (base_filename : str) (counter : nat) : str :=
  base_filename ++ underscore :: lit (pretty counter).

(** The [k]-th name tried for a base name: the base name itself, then the
    numbered ones. *)
Definition candidate (base : str) (k : nat) : str :=
  match k with O => base | S _ => suffixed base k end.

(** The [while os.path.exists(audio_file_path)] loop; [None] when the fuel
    runs out before a free path is found. *)
Fixpoint probe (fuel : nat) (w : world) (base_filename filename : str)
    (counter : nat) : option (str * str) :=
  let audio_file_path := mp3 filename in
  if exists_path w audio_file_path then
    match fuel with
    | O => None
    | S fuel =>
        probe fuel w base_filename (suffixed base_filename counter) (S counter)
    end
  else Some (audio_file_path, filename).

(** One more than the number of files is enough fuel. *)
Definition probe_fuel (w : world) : nat := S (size (files w)).

(** The body after the loop. The path returned is the one probed, relative
    to the working directory; the provider's [download] returns the absolute
    path of the same file. What the provider may leave at this path, free
    until then, when a download fails is not part of the model. *)
Definition fetch (v : video) (audio_file_path filename : str) (w : world)
    : outcome (option str * option str) * world :=
  if negb (exists_path w audio_file_path) then
    match first_audio_stream v with
    | Raise e => (Raise e, w)
    | Return None =>
        (Raise (ValueError (lit "No audio stream found for video: " ++ title v)), w)
    | Return (Some stream) =>
        match download stream with
        | Return content =>
            (Return (Some audio_file_path, Some filename),
             write_file audio_file_path content w)
        | Raise e =>
            (Return (None, None),
             print (lit "Error downloading video " ++ title v ++ lit ": "
                    ++ exn_str e) w)
        end
    end
  else (Return (Some audio_file_path, Some filename), w).

(** The function proper, for a title that has been read. *)
Definition download_titled (v : video) (w : world)
    : option (outcome (option str * option str) * world) :=
  let filename := clean_filename (title v) in
  let base_filename := filename in
  match probe (probe_fuel w) w base_filename filename 1 with
  | Some (audio_file_path, filename) => Some (fetch v audio_file_path filename w)
  | None => None
  end.

(** [video.title] is read first, and the read can raise. *)
Definition download_audio (v : video) (w : world)
    : option (outcome (option str * option str) * world) :=
  match title_error v with
  | Some e => Some (Raise e, w)
  | None => download_titled v w
  end.

(** Acquisitions one after the other, each on the disk the one before it
    left; the results in order. *)
Fixpoint download_all (videos : list video) (w : world)
    : list (outcome (option str * option str)) * world :=
  match videos with
  | [] => ([], w)
  | v :: rest =>
      match download_audio v w with
      | Some (r, w') =>
          let '(rs, w'') := download_all rest w' in (r :: rs, w'')
      | None => ([], w)
      end
  end.

(** The video sanitizes to [base] and its audio stream downloads. *)
Definition downloadable (base : str) (v : video) : Prop :=
  title_error v = None
  ∧ clean_filename (title v) = base
  ∧ ∃ content, first_audio_stream v = Return (Some (Stream (Return content))).

(** Of the names tried for [base], exactly the first [n] are on disk. *)
Definition taken_up_to (base : str) (n : nat) (w : world) : Prop :=
  ∀ k, exists_path w (mp3 (candidate base k)) = true ↔ (k < n)%nat.

End Acquirer.
Import Acquirer.

(** ** compute_transcript_with_whisper_from_audio_func *)

Section Assembler.

(** Floating-point numbers and the builtin [round(x, ndigits)] are taken as
    they come; so are the readings of [datetime.utcnow()]. *)
Context {float time : Type}.
Variable round : float → Z → float.

(** A segment as the engine yields it. *)
Record segment := Segment {
  seg_start : float;
  seg_end : float;
  seg_text : str;
  seg_avg_logprob : float;
}.

(** The [metadata] dict built for one segment. *)
Record metadata := Metadata {
  md_start : float;
  md_end : float;
  md_text : str;
  md_avg_logprob : float;
}.

(** The first value [model.transcribe] returns. faster_whisper hands back a
    generator, which yields its segments and may raise while doing so; a
    list is what a stand-in engine could hand back. *)
Inductive segments_obj :=
| SegGenerator (yields : list segment) (raises : option exn)
| SegList (items : list segment).

(** Truth value of the object in [if not segments]: a generator is always
    true, a list is true when it is not empty. *)
Definition segments_truthy (segments : segments_obj) : bool :=
  match segments with
  | SegGenerator _ _ => true
  | SegList [] => false
  | SegList (_ :: _) => true
  end.

Definition segments_items (segments : segments_obj) : list segment :=
  match segments with
  | SegGenerator yields _ => yields
  | SegList items => items
  end.

Definition segments_raises (segments : segments_obj) : option exn :=
  match segments with
  | SegGenerator _ raises => raises
  | SegList _ => None
  end.

(** What the function returns: the tuple of eight of the early return
    [[], {}, "", [], request_time, datetime.utcnow(), 0, ""], or the three
    values of the normal return. *)
Inductive transcript_result :=
| NoSegments (request_time now : time)
| Transcript (combined_transcript_text : str)
             (combined_transcript_text_list_of_metadata_dicts : list metadata)
             (list_of_transcript_sentences : list str).

Definition make_metadata (s : segment) : metadata :=
  Metadata (round (seg_start s) 2) (round (seg_end s) 2) (seg_text s)
           (round (seg_avg_logprob s) 2).

(** The [for segment in segments] loop, with the two accumulators. *)
Fixpoint segment_loop (segments : list segment)
    (combined_transcript_text : str) (dicts : list metadata)
    : str * list metadata :=
  match segments with
  | [] => (combined_transcript_text, dicts)
  | s :: rest =>
      segment_loop rest (combined_transcript_text ++ seg_text s ++ [nl])
                        (dicts ++ [make_metadata s])
  end.

(** The combined text of a sequence of segments: each text and a newline. *)
Definition lines_of (segments : list segment) : str :=
  concat (map (λ s, seg_text s ++ [nl]) segments).

Definition transcript_path (audio_file_name : str) : str :=
  lit "generated_transcript_combined_texts/" ++ audio_file_name ++ lit ".md".

(** The function from the point where [model.transcribe] has answered
    [engine]; [request_time] and [now] are the two clock readings. An
    exception raised on the way to that call (lines 121 to 138:
    [add_to_system_path], the construction of the model) leaves the function
    as one raised by the call does, and is read as [Raise e] too. The
    [open] and [write] of lines 158 and 159 are taken to succeed: the
    directory is made by [initialize_transcription], and a text the locale
    cannot encode is outside the model. *)
Definition compute_transcript_with_whisper_from_audio_func
    (audio_file_name : str) (engine : outcome segments_obj)
    (request_time now : time) (w : world)
    : outcome transcript_result * world :=
  match engine with
  | Raise e => (Raise e, w)
  | Return segments =>
      if negb (segments_truthy segments)
      then (Return (NoSegments request_time now), w)
      else
        let '(combined_transcript_text, dicts) :=
          segment_loop (segments_items segments) [] [] in
        match segments_raises segments with
        | Some e => (Raise e, w)
        | None =>
            (Return (Transcript combined_transcript_text dicts []),
             write_file (transcript_path audio_file_name)
                        combined_transcript_text w)
        end
  end.

End Assembler.

Arguments segment : clear implicits.
Arguments metadata : clear implicits.
Arguments segments_obj : clear implicits.
Arguments transcript_result : clear implicits.

(** ** process_video_or_playlist *)

Module Orchestrator.

(** Where the task [download_and_transcribe(video)] stands. *)
Inductive phase :=
| Pending                                  (* waiting at [async with download_semaphore] *)
| Downloading                              (* inside the gate, [download_audio] to run *)
| Transcribing (audio_filename : str)      (* inside the gate, the engine at work *)
| Done                                     (* the [try] block was left normally *)
| Failed                                   (* the [except Exception] handler ran *)
| Escaped (e : exn).                       (* the handler itself raised [e] *)

Definition terminal (p : phase) : bool :=
  match p with Done | Failed => true | _ => false end.

(** Does the task hold a permit of the semaphore? *)
Definition holds_permit (p : phase) : bool :=
  match p with Downloading | Transcribing _ => true | _ => false end.

Definition in_download (p : phase) : bool :=
  match p with Downloading => true | _ => false end.

Definition in_transcription (p : phase) : bool :=
  match p with Transcribing _ => true | _ => false end.

Record state := State {
  permits : nat;            (* value of [download_semaphore] *)
  phases : list phase;      (* one per task, in the order of [videos] *)
  env : world;
  returned : bool;          (* [asyncio.gather] has returned *)
}.

Definition b2n (b : bool) : nat := if b then 1 else 0.


(** [audio_path and audio_filename], on the pair [download_audio] returns. *)
Definition both_truthy (r : option str * option str) : option str :=
  match r with
  | (Some audio_path, Some audio_filename) =>
      if truthy audio_path && truthy audio_filename
      then Some audio_filename else None
  | _ => None
  end.

(** [print(f"Error processing video {video.title}: {e}")] *)
Definition report (v : video) (e : exn) : str :=
  lit "Error processing video " ++ title v ++ lit ": " ++ exn_str e.

Definition init (max_simultaneous_downloads : nat) (videos : list video)
    (w : world) : state :=
  State max_simultaneous_downloads (map (λ _, Pending) videos) w false.

Section Steps.

Context {float time : Type}.
Variable round : float → Z → float.
Variable videos : list video.

Definition set_phase (i : nat) (p : phase) (s : state) : list phase :=
  <[i := p]> (phases s).

(** One step of one task, or the return of [gather]. The semaphore is
    released when the [async with] block is left, on every path. The handler
    reads [video.title] for its message: when that read raises, the exception
    leaves the task, [gather] passes it on and the call of
    [process_video_or_playlist] ends with it; what the other tasks still do
    before [asyncio.run] cancels them is covered by their steps, the
    cancellation is not modelled. *)
Inductive step : state → state → Prop :=
| step_acquire i s :
    returned s = false →
    phases s !! i = Some Pending →
    (0 < permits s)%nat →
    step s (State (permits s - 1) (set_phase i Downloading s) (env s) false)
| step_download_ok i v s r w' audio_filename :
    returned s = false →
    phases s !! i = Some Downloading →
    videos !! i = Some v →
    download_audio v (env s) = Some (Return r, w') →
    both_truthy r = Some audio_filename →
    step s (State (permits s) (set_phase i (Transcribing audio_filename) s)
                  w' false)
| step_download_skip i v s r w' :
    returned s = false →
    phases s !! i = Some Downloading →
    videos !! i = Some v →
    download_audio v (env s) = Some (Return r, w') →
    both_truthy r = None →
    step s (State (permits s + 1) (set_phase i Done s) w' false)
| step_download_raise i v s e w' :
    returned s = false →
    phases s !! i = Some Downloading →
    videos !! i = Some v →
    download_audio v (env s) = Some (Raise e, w') →
    title_error v = None →
    step s (State (permits s + 1) (set_phase i Failed s)
                  (print (report v e) w') false)
| step_transcribe_ok i v s audio_filename
    (engine : outcome (segments_obj float)) (request_time now : time) t w' :
    returned s = false →
    phases s !! i = Some (Transcribing audio_filename) →
    videos !! i = Some v →
    compute_transcript_with_whisper_from_audio_func
      round audio_filename engine request_time now (env s)
      = (Return t, w') →
    step s (State (permits s + 1) (set_phase i Done s) w' false)
| step_transcribe_raise i v s audio_filename
    (engine : outcome (segments_obj float)) (request_time now : time) e w' :
    returned s = false →
    phases s !! i = Some (Transcribing audio_filename) →
    videos !! i = Some v →
    compute_transcript_with_whisper_from_audio_func
      round audio_filename engine request_time now (env s)
      = (Raise e, w') →
    title_error v = None →
    step s (State (permits s + 1) (set_phase i Failed s)
                  (print (report v e) w') false)
| step_return s :
    returned s = false →
    Forall (λ p, terminal p = true) (phases s) →
    step s (State (permits s) (phases s) (env s) true)
| step_download_escape i v s e e' w' :
    returned s = false →
    phases s !! i = Some Downloading →
    videos !! i = Some v →
    download_audio v (env s) = Some (Raise e, w') →
    title_error v = Some e' →
    step s (State (permits s + 1) (set_phase i (Escaped e') s) w' false)
| step_transcribe_escape i v s audio_filename
    (engine : outcome (segments_obj float)) (request_time now : time) e e' w' :
    returned s = false →
    phases s !! i = Some (Transcribing audio_filename) →
    videos !! i = Some v →
    compute_transcript_with_whisper_from_audio_func
      round audio_filename engine request_time now (env s)
      = (Raise e, w') →
    title_error v = Some e' →
    step s (State (permits s + 1) (set_phase i (Escaped e') s) w' false).

(** The states a run can be in. *)
Inductive reachable (s0 : state) : state → Prop :=
| reach_init : reachable s0 s0
| reach_step s s' : reachable s0 s → step s s' → reachable s0 s'.

Definition count_phase (f : phase → bool) (s : state) : nat :=
  length (filter (λ p, f p) (phases s)).

(** Steps a task still has to take, and the steps left in a run. *)
Definition remaining (p : phase) : nat :=
  match p with
  | Pending => 3 | Downloading => 2 | Transcribing _ => 1
  | Done | Failed | Escaped _ => 0
  end.

Definition steps_left (s : state) : nat :=
  (if returned s then 0 else 1) + sum_list (map remaining (phases s)).

End Steps.

End Orchestrator.

(** ** is_single_video *)

(** [sub in s] on strings: [sub] occurs somewhere in [s]. *)
Fixpoint contains (sub s : str) : bool :=
  has_prefix sub s
  || match s with
     | [] => false
     | _ :: r => contains sub r
     end.

Definition is_single_video (url : str) : bool :=
  negb (contains (lit "playlist") url).

(** ** The device choice of the transcription, from the flag of main *)

(** Truth value of an [int]. *)
Definition int_truthy (n : Z) : bool := negb (n =? 0)%Z.

(** [disable_cuda_override = 0 if cuda else 1] in [main]. *)
Definition main_disable_cuda_override (cuda : bool) : Z :=
  if cuda then 0%Z else 1%Z.

(** The [device] and [compute_type] chosen in
    [compute_transcript_with_whisper_from_audio_func]. *)
Definition select_device (cuda_is_available : bool) (disable_cuda_override : Z)
    : str * str :=
  if cuda_is_available && negb (int_truthy disable_cuda_override)
  then (lit "cuda", lit "float16")
  else (lit "cpu", lit "auto").

(** ** add_to_system_path *)

Module SystemPath.

(** [s.split(sep)] for a separator of one character; [cur] is the entry being
    read, reversed. *)
Fixpoint split_go (sep : ascii) (cur : str) (s : str) : list str :=
  match s with
  | [] => [rev cur]
  | c :: r =>
      if bool_decide (c = sep) then rev cur :: split_go sep [] r
      else split_go sep (c :: cur) r
  end.

Definition split (sep : ascii) (s : str) : list str := split_go sep [] s.

(** [s.replace(old, new)] for an [old] that is not empty: the occurrences
    from left to right, not overlapping. An occurrence has at least one
    character, so a fuel of the length of the text is never used up. *)
Fixpoint replace_go (fuel : nat) (old new s : str) : str :=
  match fuel with
  | O => s
  | S fuel =>
      match s with
      | [] => []
      | c :: r =>
          if has_prefix old s
          then new ++ replace_go fuel old new (drop (length old) s)
          else c :: replace_go fuel old new r
      end
  end.

(** [s.replace(old, new)]; an empty [old] matches before every character and
    at the end. *)
Definition replace (old new s : str) : str :=
  match old with
  | [] => new ++ concat (map (λ c, c :: new) s)
  | _ :: _ => replace_go (length s) old new s
  end.

Definition startswith (p s : str) : bool := has_prefix p s.

Definition endswith (p s : str) : bool := has_prefix (rev p) (rev s).

(** How the call ends: the new [os.environ], or the [KeyError] of
    [os.environ["PATH"]]. *)
Inductive environ_result :=
| Environ (environ : gmap str str)
| KeyError (key : str).

(** [platform] is [sys.platform], [pathsep] is [os.pathsep]. *)
Definition add_to_system_path (platform : str) (pathsep : ascii)
    (new_path : str) (environ : gmap str str) : environ_result :=
  match environ !! lit "PATH" with
  | None => KeyError (lit "PATH")
  | Some path =>
      let environ :=
        if negb (bool_decide (new_path ∈ split pathsep path))
        then <[lit "PATH" := new_path ++ pathsep :: path]> environ
        else environ in
      if bool_decide (platform = lit "win32")
         && contains (lit " ") new_path
         && negb (startswith [dquote] new_path)
         && negb (endswith [dquote] new_path)
      then
        match environ !! lit "PATH" with
        | None => KeyError (lit "PATH")
        | Some path =>
            Environ (<[lit "PATH" :=
                        (dquote :: new_path ++ [dquote]) ++ pathsep
                          :: replace new_path [] path]> environ)
        end
      else Environ environ
  end.

(** The quoting branch is not taken. *)
Definition unquoted_case (platform new_path : str) : Prop :=
  bool_decide (platform = lit "win32")
  && contains (lit " ") new_path
  && negb (startswith [dquote] new_path)
  && negb (endswith [dquote] new_path) = false.

End SystemPath.

(** ** Runs of a given length *)

Module Runs.
Import Orchestrator.

Section Length.

Context {float time : Type}.
Variable round : float → Z → float.
Variable videos : list video.

(** [run n s s']: [n] steps lead from [s] to [s']. *)
Inductive run : nat → state → state → Prop :=
| run_nil s : run 0 s s
| run_step n s s' s'' :
    run n s s' → step (time:=time) round videos s' s'' → run (S n) s s''.

End Length.

End Runs.

(** Every character of the class: the text has none outside it. *)
Definition no_char (p : ascii → bool) (s : str) : Prop :=
  Forall (λ c, p c = false) s.

(** A terminal punctuation mark: a period, an exclamation or question mark. *)
Definition is_terminal_mark (c : ascii) : bool :=
  is_char 46 c || is_char 33 c || is_char 63 c.

(** A character the pagination cleanup leaves alone: not a hyphen, a line
    break or a space. *)
Definition untouched (c : ascii) : bool :=
  negb (is_char 45 c || is_char 10 c || is_char 32 c).

(** [w'] has the files of [w], its audio files with their content, and the
    error reports of [w] with lines added. *)
Definition keeps_disk (w w' : world) : Prop :=
  (∀ path, is_Some (files w !! path) → is_Some (files w' !! path))
  ∧ (∀ name content, files w !! mp3 name = Some content →
                     files w' !! mp3 name = Some content)
  ∧ ∃ lines, reports w' = reports w ++ lines.

(** ** Sample inputs *)

(** A video whose audio stream downloads. *)
Definition sample_video (t : string) : video :=
  Video (lit t) (Return (Some (Stream (Return (lit "audio"))))) None.

(** A video without an audio stream. *)
Definition silent_video (t : string) : video :=
  Video (lit t) (Return None) None.


Definition empty_disk : world := World ∅ [].

(** * Properties *)

(** ** Characters *)

(** Case analysis over the 256 characters. *)
Ltac each_char c :=
  destruct c as [[] [] [] [] [] [] [] []]; vm_compute; try done; auto.

Lemma word_not_hyphen_nl c :
  re_word c = true → is_char 45 c = false ∧ is_char 10 c = false.
Proof. each_char c. Qed.

Lemma az_not_hyphen_nl_AZ c :
  az c = true → is_char 45 c = false ∧ is_char 10 c = false ∧ AZ c = false.
Proof. each_char c. Qed.

Lemma is_char_eq k c : is_char k c = true → c = ascii_of_N k.
Proof.
  unfold is_char, code. intros H%N.eqb_eq. subst k. by rewrite ascii_N_embedding.
Qed.

(** ** remove_pagination_breaks *)

Section Pagination.

Implicit Types (s pre post : str) (c p : ascii).

Lemma dehyphenate_cons c s :
  is_char 45 c = false → dehyphenate (c :: s) = c :: dehyphenate s.
Proof. intros H. destruct s as [|n r]; simpl; [done|]. by rewrite H. Qed.

Lemma dehyphenate_cons2 c n s :
  dehyphenate (c :: n :: s)
  = if is_char 45 c && is_char 10 n && starts_with az s
    then dehyphenate s else c :: dehyphenate (n :: s).
Proof. done. Qed.

Lemma starts_with_app f s t :
  s ≠ [] → starts_with f (s ++ t) = starts_with f s.
Proof. by destruct s. Qed.

(** A character that is neither a hyphen nor a line break cuts the first
    pass in two. *)
Lemma dehyphenate_cut p pre post :
  is_char 45 p = false → is_char 10 p = false →
  dehyphenate (pre ++ p :: post) = dehyphenate (pre ++ [p]) ++ dehyphenate post.
Proof.
  intros Hh Hn. remember (length pre) as k eqn:Hk.
  revert pre Hk. induction (lt_wf k) as [k _ IH]. intros pre ->.
  destruct pre as [|x [|y pre]].
  - simpl app. by rewrite !dehyphenate_cons.
  - simpl app. rewrite !dehyphenate_cons2, Hn, andb_false_r. cbn [andb app].
    by rewrite !(dehyphenate_cons p).
  - change ((x :: y :: pre) ++ p :: post) with (x :: y :: (pre ++ p :: post)).
    change ((x :: y :: pre) ++ [p]) with (x :: y :: (pre ++ [p])).
    rewrite !dehyphenate_cons2.
    assert (starts_with az (pre ++ p :: post) = starts_with az (pre ++ [p])) as ->.
    { by destruct pre. }
    destruct (is_char 45 x && is_char 10 y && starts_with az (pre ++ [p])).
    + eapply IH; [|done]. simpl. lia.
    + rewrite <-app_comm_cons. f_equal.
      exact (IH (length (y :: pre)) ltac:(simpl; lia) (y :: pre) eq_refl).
Qed.

Lemma dehyphenate_snoc p pre :
  is_char 45 p = false → is_char 10 p = false →
  ∃ d, dehyphenate (pre ++ [p]) = d ++ [p].
Proof.
  intros Hh Hn. remember (length pre) as k eqn:Hk.
  revert pre Hk. induction (lt_wf k) as [k _ IH]. intros pre ->.
  destruct pre as [|x [|y pre]].
  - by exists [].
  - exists [x]. simpl. by rewrite Hn, andb_false_r.
  - change ((x :: y :: pre) ++ [p]) with (x :: y :: (pre ++ [p])).
    rewrite dehyphenate_cons2.
    destruct (is_char 45 x && is_char 10 y && starts_with az (pre ++ [p])).
    + eapply IH; [|done]. simpl. lia.
    + destruct (IH (length (y :: pre)) ltac:(simpl; lia) (y :: pre) eq_refl)
        as [d Hd].
      exists (x :: d). simpl in Hd |- *. by rewrite Hd.
Qed.

(** A hyphen, a line break and a lowercase letter: the first two go. *)
Lemma dehyphenate_match pre c post :
  az c = true →
  dehyphenate (pre ++ hyphen :: nl :: c :: post)
  = dehyphenate pre ++ dehyphenate (c :: post).
Proof.
  intros Hc. remember (length pre) as k eqn:Hk.
  revert pre Hk. induction (lt_wf k) as [k _ IH]. intros pre ->.
  destruct pre as [|x [|y pre]].
  - simpl app. rewrite dehyphenate_cons2. simpl starts_with. by rewrite Hc.
  - simpl app. rewrite (dehyphenate_cons2 x), andb_false_r. simpl andb.
    rewrite (dehyphenate_cons2 hyphen). simpl starts_with. by rewrite Hc.
  - change ((x :: y :: pre) ++ hyphen :: nl :: c :: post)
      with (x :: y :: (pre ++ hyphen :: nl :: c :: post)).
    rewrite !(dehyphenate_cons2 x).
    assert (starts_with az (pre ++ hyphen :: nl :: c :: post)
            = starts_with az pre) as ->.
    { by destruct pre. }
    destruct (is_char 45 x && is_char 10 y && starts_with az pre).
    + eapply IH; [|done]. simpl. lia.
    + rewrite <-app_comm_cons. f_equal.
      exact (IH (length (y :: pre)) ltac:(simpl; lia) (y :: pre) eq_refl).
Qed.

Lemma wrap_lookahead_dehyphenate s :
  wrap_lookahead s = true → wrap_lookahead (dehyphenate s) = true.
Proof.
  destruct s as [|c [|n r]]; [done..|].
  rewrite dehyphenate_cons2. intros H.
  destruct (is_char 45 c && is_char 10 n && starts_with az r) eqn:E; [|done].
  apply andb_prop in E as [_ E]. destruct r as [|c' r]; [done|].
  simpl in E. destruct (az_not_hyphen_nl_AZ _ E) as (Hh & Hn & HA).
  rewrite dehyphenate_cons by done.
  unfold wrap_lookahead. simpl. by rewrite Hn, HA.
Qed.

(** A character that is not a line break cuts the second pass in two. *)
Lemma join_wrapped_cut prev p pre post :
  is_char 10 p = false →
  join_wrapped prev (pre ++ p :: post)
  = join_wrapped prev (pre ++ [p]) ++ join_wrapped (Some p) post.
Proof.
  intros Hn. revert prev. induction pre as [|x pre IH]; intros prev.
  - simpl. by rewrite Hn.
  - simpl. rewrite IH. f_equal.
    assert (wrap_lookahead (pre ++ p :: post) = wrap_lookahead (pre ++ [p])) as ->.
    { by destruct pre. }
    done.
Qed.

End Pagination.

(** C9. The pagination cleanup is the dehyphenation followed by the soft-wrap
    join. The example ["inter-\nesting"] becomes ["interesting"]; a hyphen
    followed by a line break and a lowercase letter is deleted together with
    its line break, wherever it stands; and a line break preceded by a word
    character that is not a period, question mark, exclamation mark, hyphen
    or digit, and not followed by an uppercase letter or another line break,
    comes out as a single space, right after the cleaned-up text before it. *)
Theorem pagination_cleanup_spec :
  remove_pagination_breaks (lit "inter-" ++ nl :: lit "esting") = lit "interesting"
  ∧ (∀ text, remove_pagination_breaks text = join_wrapped None (dehyphenate text))
  ∧ (∀ pre c post,
       az c = true →
       dehyphenate (pre ++ hyphen :: nl :: c :: post)
       = dehyphenate pre ++ dehyphenate (c :: post))
  ∧ (∀ pre p post,
       re_word p = true →
       is_char 46 p || is_char 63 p || is_char 33 p || is_char 45 p
         || re_digit p = false →
       starts_with (λ c, is_char 10 c || AZ c) post = false →
       remove_pagination_breaks (pre ++ p :: nl :: post)
       = remove_pagination_breaks (pre ++ [p])
         ++ space :: join_wrapped (Some nl) (dehyphenate post)).
Proof.
  split; [by vm_compute|]. split; [done|]. split.
  - intros. by apply dehyphenate_match.
  - intros pre p post Hw Hp Hpost.
    destruct (word_not_hyphen_nl _ Hw) as [Hh Hn].
    unfold remove_pagination_breaks.
    rewrite (dehyphenate_cut p) by done.
    destruct (dehyphenate_snoc p pre Hh Hn) as [d ->].
    rewrite (dehyphenate_cons nl) by done.
    rewrite <-(assoc_L (++) d [p]). simpl app.
    rewrite (join_wrapped_cut _ p) by done. f_equal.
    cbn [join_wrapped wrap_lookbehind]. rewrite Hw, Hp.
    rewrite wrap_lookahead_dehyphenate; [done|].
    unfold wrap_lookahead. by rewrite Hpost.
Qed.

Lemma pagination_cleanup_spec_witness :
  dehyphenate (lit "inter" ++ hyphen :: nl :: "e"%char :: lit "sting")
  = dehyphenate (lit "inter") ++ dehyphenate ("e"%char :: lit "sting")
  ∧ remove_pagination_breaks (lit "sof" ++ "t"%char :: nl :: lit "wrap")
    = remove_pagination_breaks (lit "sof" ++ ["t"%char])
      ++ space :: join_wrapped (Some nl) (dehyphenate (lit "wrap")).
Proof.
  split.
  - apply (proj1 (proj2 (proj2 pagination_cleanup_spec))). reflexivity.
  - apply (proj2 (proj2 (proj2 pagination_cleanup_spec))); reflexivity.
Defined.

(** ** clean_filename *)

Section Sanitizer.

Implicit Types (s t : str) (c : ascii).

Lemma kept_not_sep_word c : keeps c = true → is_sep c = false → re_word c = true.
Proof. each_char c. Qed.

Lemma word_keeps c : re_word c = true → keeps c = true ∧ is_sep c = false.
Proof. each_char c. Qed.

Lemma word_not_space c :
  re_word c = true → re_space c = false ∧ c ≠ slash ∧ c ≠ backslash.
Proof. each_char c. Qed.



Lemma lower_char_lower c :
  lower_char (lower_char c) = lower_char c ∧ AZ (lower_char c) = false.
Proof. each_char c. Qed.

Lemma collapse_runs_word b s :
  Forall (λ c, keeps c = true) s → all_word (collapse_runs b s).
Proof.
  intros H. revert b. induction H as [|c s Hc _ IH]; intros b; simpl.
  - constructor.
  - destruct (is_sep c) eqn:E.
    + destruct b; [apply IH|]. constructor; [done|apply IH].
    + constructor; [by apply kept_not_sep_word|apply IH].
Qed.


(** Once inside a run, the rest of the run disappears. *)
Lemma collapse_runs_skip run s :
  Forall (λ c, is_sep c = true) run →
  collapse_runs true (run ++ s) = collapse_runs true s.
Proof. induction 1 as [|c run Hc _ IH]; simpl; [done|]. by rewrite Hc. Qed.

Lemma collapse_runs_app b s t :
  all_word s → collapse_runs b (s ++ t) = s ++ collapse_runs (b && bool_decide (s = [])) t.
Proof.
  intros H. revert b. induction H as [|c s Hc _ IH]; intros b; simpl.
  - by rewrite andb_true_r.
  - destruct (word_keeps _ Hc) as [_ ->]. rewrite IH. simpl.
    by rewrite andb_false_r.
Qed.

Lemma strip_specials_forall t : Forall (λ c, keeps c = true) (strip_specials t).
Proof.
  unfold strip_specials. apply Forall_forall. intros c Hc.
  apply list_elem_of_filter in Hc as [Hc _]. by apply Is_true_true.
Qed.


Lemma lstrip_id s : Forall (λ c, re_space c = false) s → lstrip s = s.
Proof. destruct 1 as [|c s Hc _]; simpl; [done|]. by rewrite Hc. Qed.

Lemma strip_id s : Forall (λ c, re_space c = false) s → strip s = s.
Proof.
  intros H. unfold strip, rstrip. rewrite (lstrip_id s H).
  rewrite lstrip_id.
  { apply rev_involutive. }
  apply Forall_forall. intros c Hc%list_elem_of_In%in_rev%list_elem_of_In.
  revert c Hc. by apply Forall_forall.
Qed.

Lemma all_word_no_space s : all_word s → Forall (λ c, re_space c = false) s.
Proof.
  intros H. eapply Forall_impl; [done|]. intros c Hc. by apply word_not_space.
Qed.


Lemma lower_lower s : lower (lower s) = lower s.
Proof.
  unfold lower. rewrite map_map. apply map_ext. intros c.
  apply lower_char_lower.
Qed.



Lemma clean_filename_unstripped t :
  clean_filename t = lower (collapse_runs false (strip_specials t)).
Proof.
  unfold clean_filename.
  pose proof (collapse_runs_word false _ (strip_specials_forall t)) as H.
  by rewrite strip_id by by apply all_word_no_space.
Qed.


End Sanitizer.

(** ** clean_filename on the wider alphabet *)

Section SanitizerWide.

Implicit Types (u : Wide.uchar) (t a run : Wide.ustr) (s : str) (c : ascii).















(** On U+0000..U+00FF the functions of the wider alphabet are those of the
    narrow one. *)
Lemma embed_strip_specials s :
  Wide.strip_specials (Wide.embed s) = Wide.embed (strip_specials s).
Proof.
  unfold Wide.strip_specials, strip_specials, Wide.embed.
  induction s as [|c s IH]; [done|]. simpl map.
  assert (Wide.keeps (Wide.Latin c) = keeps c) as Hk by reflexivity.
  destruct (keeps c) eqn:E.
  - rewrite (filter_cons_True _ (Wide.Latin c)) by (by apply Is_true_true_2).
    rewrite (filter_cons_True _ c) by (by apply Is_true_true_2).
    simpl. by rewrite IH.
  - rewrite (filter_cons_False _ (Wide.Latin c))
      by (intros ?%Is_true_true_1; congruence).
    rewrite (filter_cons_False _ c) by (intros ?%Is_true_true_1; congruence).
    done.
Qed.

Lemma embed_collapse_runs b s :
  Wide.collapse_runs b (Wide.embed s) = Wide.embed (collapse_runs b s).
Proof.
  revert b. induction s as [|c s IH]; intros b; [done|]. simpl.
  change (Wide.is_sep (Wide.Latin c)) with (is_sep c).
  destruct (is_sep c); [destruct b|]; simpl; by rewrite <-IH.
Qed.

Lemma embed_lstrip s : Wide.lstrip (Wide.embed s) = Wide.embed (lstrip s).
Proof.
  induction s as [|c s IH]; [done|]. simpl.
  by destruct (re_space c).
Qed.

Lemma embed_strip s : Wide.strip (Wide.embed s) = Wide.embed (strip s).
Proof.
  unfold Wide.strip, strip, Wide.rstrip, rstrip.
  rewrite embed_lstrip. unfold Wide.embed at 1. rewrite <-map_rev.
  fold (Wide.embed (rev (lstrip s))). rewrite embed_lstrip.
  unfold Wide.embed. by rewrite map_rev.
Qed.

Lemma embed_lower s : Wide.lower (Wide.embed s) = Wide.embed (lower s).
Proof.
  unfold Wide.lower, Wide.embed, lower.
  induction s as [|c s IH]; [done|]. simpl. by rewrite IH.
Qed.

Lemma embed_clean_filename s :
  Wide.clean_filename (Wide.embed s) = Wide.embed (clean_filename s).
Proof.
  unfold Wide.clean_filename, clean_filename.
  by rewrite embed_strip_specials, embed_collapse_runs, embed_strip, embed_lower.
Qed.

Lemma latin1_embed t : Wide.latin1 t → ∃ s, t = Wide.embed s.
Proof.
  induction 1 as [|u t Hu _ [s ->]]; [by exists []|].
  destruct u as [c| |]; try done. by exists (c :: s).
Qed.

End SanitizerWide.




(** ** strip and count *)

Section StripCount.

Implicit Types (s t : str) (c k : ascii).

Lemma count_app k s t : count k (s ++ t) = (count k s + count k t)%nat.
Proof. unfold count. by rewrite filter_app, length_app. Qed.

Lemma count_nil k : count k [] = 0%nat.
Proof. done. Qed.

Lemma count_all_space k s : re_space k = false → all_space s → count k s = 0%nat.
Proof.
  intros Hk. induction 1 as [|c s Hc _ IH]; [done|].
  unfold count in *. rewrite filter_cons_False; [done|].
  intros ->. congruence.
Qed.

Lemma without_space_app s t :
  without_space (s ++ t) = without_space s ++ without_space t.
Proof. apply filter_app. Qed.

Lemma without_space_all_space s : all_space s → without_space s = [].
Proof.
  induction 1 as [|c s Hc _ IH]; [done|]. unfold without_space in *.
  rewrite filter_cons_False; [done|]. congruence.
Qed.

Lemma lstrip_split s : ∃ a, s = a ++ lstrip s ∧ all_space a.
Proof.
  induction s as [|c s (a & IH & Ha)]; simpl.
  - exists []. split; [done|constructor].
  - destruct (re_space c) eqn:E.
    + exists (c :: a). split; [by rewrite IH at 1|by constructor].
    + exists []. split; [done|constructor].
Qed.

Lemma lstrip_head s : starts_with re_space (lstrip s) = false.
Proof.
  induction s as [|c s IH]; simpl; [done|].
  destruct (re_space c) eqn:E; [done|]. simpl. done.
Qed.

Lemma lstrip_fix s : starts_with re_space s = false → lstrip s = s.
Proof. destruct s as [|c s]; simpl; [done|]. by intros ->. Qed.

(** [strip] takes whitespace away at the two ends and nothing else. *)
Lemma strip_split s : ∃ a b, s = a ++ strip s ++ b ∧ all_space a ∧ all_space b.
Proof.
  destruct (lstrip_split s) as (a & Hs & Ha).
  destruct (lstrip_split (rev (lstrip s))) as (b & Hr & Hb).
  exists a, (rev b). split; [|split; [done|]].
  - unfold strip, rstrip. rewrite <-rev_app_distr, <-Hr, rev_involutive. done.
  - apply Forall_forall. intros c Hc%list_elem_of_In%in_rev%list_elem_of_In.
    revert c Hc. by apply Forall_forall.
Qed.

Lemma count_strip k s : re_space k = false → count k (strip s) = count k s.
Proof.
  intros Hk. destruct (strip_split s) as (a & b & Hs & Ha & Hb).
  rewrite Hs at 2. rewrite !count_app.
  rewrite (count_all_space k a), (count_all_space k b) by done. lia.
Qed.

Lemma without_space_strip s : without_space (strip s) = without_space s.
Proof.
  destruct (strip_split s) as (a & b & Hs & Ha & Hb).
  rewrite Hs at 2. rewrite !without_space_app.
  rewrite (without_space_all_space a), (without_space_all_space b) by done.
  by rewrite app_nil_r.
Qed.

Lemma strip_strip s : strip (strip s) = strip s.
Proof.
  unfold strip at 2 3. unfold rstrip.
  set (x := lstrip s). set (y := lstrip (rev x)).
  assert (lstrip y = y) as Hy by apply lstrip_fix, lstrip_head.
  assert (lstrip (rev y) = rev y) as Hry.
  { apply lstrip_fix.
    destruct (lstrip_split (rev x)) as (a & Hx & _). fold y in Hx.
    apply (f_equal (@rev ascii)) in Hx.
    rewrite rev_involutive, rev_app_distr in Hx.
    pose proof (lstrip_head s) as Hh. fold x in Hh. rewrite Hx in Hh.
    destruct (rev y); [done|]. done. }
  unfold strip, rstrip. by rewrite Hry, rev_involutive, Hy.
Qed.

Lemma dquote_not_space : re_space dquote = false.
Proof. done. Qed.

Lemma truthy_true s : truthy s = true ↔ s ≠ [].
Proof. by destruct s. Qed.

End StripCount.

(** ** The scan of re.split *)

Section Scan.

Implicit Types (s t cur m : str) (c : ascii) (n fuel : nat).

Lemma has_prefix_app p s : has_prefix p s = true → ∃ r, s = p ++ r.
Proof.
  revert s. induction p as [|a p IH]; intros s; simpl.
  - by exists s.
  - destruct s as [|b s]; [done|].
    intros [->%bool_decide_eq_true [r ->]%IH]%andb_prop. by exists r.
Qed.

Lemma space_run_take s :
  Forall (λ c, is_delimiter c = true) (take (space_run s) s)
  ∧ (space_run s ≤ length s)%nat.
Proof.
  induction s as [|c s [IH1 IH2]]; simpl; [by split; [constructor|]|].
  destruct (re_space c) eqn:E; simpl.
  - split; [|lia]. constructor; [|done].
    unfold is_delimiter. by rewrite E, !orb_true_r.
  - split; [constructor|lia].
Qed.

(** A match is not empty, fits in the text, and is made of delimiters. *)
Lemma match_at_spec s n :
  match_at s = Some n →
  (0 < n ≤ length s)%nat ∧ Forall (λ c, is_delimiter c = true) (take n s).
Proof.
  unfold match_at, alt_period, alt_punct_space, alt_ellipsis.
  destruct s as [|c r]; [done|].
  destruct (is_char 46 c && _ && _) eqn:E1.
  { intros [= <-]. simpl. split; [lia|].
    apply andb_prop in E1 as [[E1 _]%andb_prop _].
    repeat constructor. unfold is_delimiter. by rewrite E1. }
  destruct ((is_char 46 c || is_char 33 c || is_char 63 c) && _) eqn:E2.
  { intros [= <-]. apply andb_prop in E2 as [E2 _].
    destruct (space_run_take r) as [H1 H2]. simpl. split; [lia|].
    constructor; [|done]. unfold is_delimiter. by rewrite E2. }
  destruct (has_prefix (lit "...") (c :: r) && _) eqn:E3; [|done].
  intros [= <-]. apply andb_prop in E3 as [[t Ht]%has_prefix_app _].
  rewrite Ht. simpl. split; [lia|]. by repeat constructor.
Qed.

Lemma scan_concat fuel cur s :
  concat (map chunk_text (scan fuel cur s)) = rev cur ++ s.
Proof.
  revert cur s. induction fuel as [|fuel IH]; intros cur s; simpl.
  { by rewrite app_nil_r. }
  destruct s as [|c r]; simpl; [done|].
  destruct (match_at (c :: r)) as [n|] eqn:E.
  - cbn [map concat chunk_text]. rewrite IH. simpl.
    by rewrite take_drop.
  - rewrite IH. simpl. by rewrite <-(assoc_L (++)).
Qed.

(** Fuel beyond the length of the text makes no difference. *)
Lemma scan_fuel f1 f2 cur s :
  (length s < f1)%nat → (length s < f2)%nat → scan f1 cur s = scan f2 cur s.
Proof.
  revert f2 cur s. induction f1 as [|f1 IH]; intros f2 cur s H1 H2; [lia|].
  destruct f2 as [|f2]; [lia|]. simpl.
  destruct s as [|c r]; [done|].
  destruct (match_at (c :: r)) as [n|] eqn:E.
  - destruct (match_at_spec _ _ E) as [[Hn _] _].
    do 2 f_equal. apply IH; rewrite length_drop; simpl in *; lia.
  - apply IH; simpl in *; lia.
Qed.

Lemma scan_matched fuel cur s :
  Forall (λ m, m ≠ [] ∧ Forall (λ c, is_delimiter c = true) m)
         (matched_of (scan fuel cur s)).
Proof.
  revert cur s. induction fuel as [|fuel IH]; intros cur s; simpl.
  { constructor. }
  destruct s as [|c r]; simpl; [constructor|].
  destruct (match_at (c :: r)) as [n|] eqn:E; [|apply IH].
  destruct (match_at_spec _ _ E) as [[Hn _] Hd].
  cbn [matched_of]. constructor; [|apply IH]. split; [|done].
  destruct n; [lia|done].
Qed.

Lemma delimiters_no_quote m :
  Forall (λ c, is_delimiter c = true) m → count dquote m = 0%nat.
Proof.
  induction 1 as [|c m Hc _ IH]; [done|]. unfold count in *.
  rewrite filter_cons_False; [done|]. by intros ->.
Qed.

(** The double quotes of a text are all in the strings between the matches. *)
Lemma scan_count_quotes fuel cur s :
  count dquote (concat (strings_of (map split_item (scan fuel cur s))))
  = count dquote (rev cur ++ s).
Proof.
  revert cur s. induction fuel as [|fuel IH]; intros cur s; simpl.
  { by rewrite app_nil_r. }
  destruct s as [|c r]; simpl; [done|].
  destruct (match_at (c :: r)) as [n|] eqn:E.
  - destruct (match_at_spec _ _ E) as [_ Hd].
    cbn [map strings_of concat split_item]. rewrite !count_app, IH.
    simpl rev. simpl app at 1.
    rewrite <-(take_drop n (c :: r)) at 2.
    by rewrite count_app, (delimiters_no_quote _ Hd).
  - rewrite IH. simpl. by rewrite <-(assoc_L (++)).
Qed.

End Scan.

(** ** Double quotes through the cleanup and the re-merge loop *)

Section Merge.

Implicit Types (s t temp : str) (c : ascii) (l : list (option str))
  (refined new : list str).

Lemma count_cons_ne k c s : c ≠ k → count k (c :: s) = count k s.
Proof. intros H. unfold count. by rewrite filter_cons_False. Qed.

Lemma count_cons_eq k s : count k (k :: s) = S (count k s).
Proof. unfold count. by rewrite filter_cons_True. Qed.

Lemma count_cons_same k c d s :
  (c = k ↔ d = k) → count k (c :: s) = count k (d :: s).
Proof.
  intros H. destruct (decide (c = k)) as [->|Hc].
  - rewrite (proj1 H eq_refl). done.
  - rewrite !count_cons_ne; [done| |done]. intros Hd. by apply Hc, H.
Qed.

Lemma dehyphenate_quotes s : count dquote (dehyphenate s) = count dquote s.
Proof.
  remember (length s) as k eqn:Hk.
  revert s Hk. induction (lt_wf k) as [k _ IH]. intros s ->.
  destruct s as [|x [|y s]]; [done..|].
  rewrite dehyphenate_cons2.
  destruct (is_char 45 x && is_char 10 y && starts_with az s) eqn:E.
  - apply andb_prop in E as [[->%is_char_eq ->%is_char_eq]%andb_prop _].
    rewrite (IH (length s) ltac:(simpl; lia) s eq_refl).
    by rewrite !count_cons_ne.
  - destruct (decide (x = dquote)) as [->|Hx].
    + rewrite !count_cons_eq. f_equal.
      exact (IH (length (y :: s)) ltac:(simpl; lia) (y :: s) eq_refl).
    + rewrite !(count_cons_ne _ x) by done.
      exact (IH (length (y :: s)) ltac:(simpl; lia) (y :: s) eq_refl).
Qed.

Lemma join_wrapped_quotes prev s :
  count dquote (join_wrapped prev s) = count dquote s.
Proof.
  revert prev. induction s as [|c s IH]; intros prev; simpl; [done|].
  destruct (is_char 10 c && _ && _) eqn:E.
  - apply andb_prop in E as [[->%is_char_eq _]%andb_prop _].
    rewrite !count_cons_ne by done. apply IH.
  - destruct (decide (c = dquote)) as [->|Hc].
    + by rewrite !count_cons_eq, IH.
    + by rewrite !(count_cons_ne _ c), IH.
Qed.

Lemma remove_pagination_breaks_quotes s :
  count dquote (remove_pagination_breaks s) = count dquote s.
Proof.
  unfold remove_pagination_breaks.
  by rewrite join_wrapped_quotes, dehyphenate_quotes.
Qed.

Lemma re_split_quotes s :
  count dquote (concat (strings_of (re_split s))) = count dquote s.
Proof. unfold re_split, find_matches. by rewrite scan_count_quotes. Qed.

Lemma balanced_concat new : Forall balanced new → balanced (concat new).
Proof.
  unfold balanced. induction 1 as [|x new Hx _ IH]; [done|].
  simpl. by rewrite count_app, Nat.even_add, Hx, IH.
Qed.

(** What the loop does to its accumulators: the sentences it appends are
    balanced, and together with the fragment left in [temp_sentence] they
    hold, in order and up to whitespace, the strings it went through. *)
Lemma merge_loop_spec l refined temp :
  ∃ new,
    (merge_loop l refined temp).1 = refined ++ new
    ∧ Forall balanced new
    ∧ without_space (concat new ++ (merge_loop l refined temp).2)
      = without_space (temp ++ concat (strings_of l))
    ∧ (count dquote (concat new) + count dquote (merge_loop l refined temp).2
       = count dquote temp + count dquote (concat (strings_of l)))%nat.
Proof.
  revert refined temp.
  induction l as [|[s|] l IH]; intros refined temp; simpl.
  - exists []. simpl. rewrite !app_nil_r. split; [done|split; [constructor|split; [done|]]].
    change (count dquote []) with 0%nat. lia.
  - destruct (Nat.even (count dquote (temp ++ s))) eqn:E.
    + destruct (IH (refined ++ [strip (temp ++ s)]) []) as (new & H1 & H2 & H3 & H4).
      exists (strip (temp ++ s) :: new). split; [|split; [|split]].
      * by rewrite H1, <-(assoc_L (++)).
      * constructor; [|done]. unfold balanced.
        by rewrite count_strip.
      * simpl. rewrite <-(assoc_L (++)), without_space_app, H3.
        rewrite without_space_strip, <-without_space_app.
        by rewrite <-(assoc_L (++)).
      * simpl in *. rewrite !count_app in *. rewrite count_strip by done.
        rewrite count_app. lia.
    + destruct (IH refined (temp ++ s)) as (new & H1 & H2 & H3 & H4).
      exists new. split; [done|split; [done|split]].
      * by rewrite H3, <-(assoc_L (++)).
      * rewrite H4, !count_app. lia.
  - apply IH.
Qed.

Lemma keep_nonblank_app refined new :
  keep_nonblank (refined ++ new) = keep_nonblank refined ++ keep_nonblank new.
Proof. unfold keep_nonblank. by rewrite filter_app, map_app. Qed.

Lemma keep_nonblank_cons s refined :
  keep_nonblank (s :: refined)
  = (if truthy (strip s) then [strip s] else []) ++ keep_nonblank refined.
Proof.
  unfold keep_nonblank. destruct (truthy (strip s)) eqn:E.
  - rewrite filter_cons_True; [done|]. by apply Is_true_true_2.
  - rewrite filter_cons_False; [done|]. intros ?%Is_true_true_1. congruence.
Qed.

Lemma keep_nonblank_trimmed refined :
  Forall (λ s, s ≠ [] ∧ strip s = s) (keep_nonblank refined).
Proof.
  induction refined as [|s refined IH]; [constructor|].
  rewrite keep_nonblank_cons. destruct (truthy (strip s)) eqn:E; [|done].
  constructor; [|done]. split; [by apply truthy_true|apply strip_strip].
Qed.

Lemma keep_nonblank_balanced refined :
  Forall balanced refined → Forall balanced (keep_nonblank refined).
Proof.
  induction 1 as [|s refined Hs _ IH]; [constructor|].
  rewrite keep_nonblank_cons. destruct (truthy (strip s)); [|done].
  constructor; [|done]. unfold balanced. by rewrite count_strip.
Qed.

Lemma keep_nonblank_without_space refined :
  without_space (concat (keep_nonblank refined)) = without_space (concat refined).
Proof.
  induction refined as [|s refined IH]; [done|].
  rewrite keep_nonblank_cons, concat_app, without_space_app, IH.
  change (concat (s :: refined)) with (s ++ concat refined).
  rewrite without_space_app. f_equal.
  rewrite <-(without_space_strip s).
  destruct (strip s); simpl; [done|]. by rewrite app_nil_r.
Qed.

Lemma keep_nonblank_quotes refined :
  count dquote (concat (keep_nonblank refined)) = count dquote (concat refined).
Proof.
  induction refined as [|s refined IH]; [done|].
  rewrite keep_nonblank_cons, concat_app, count_app, IH.
  change (concat (s :: refined)) with (s ++ concat refined).
  rewrite count_app. f_equal.
  rewrite <-(count_strip dquote s) by done.
  destruct (strip s); simpl; [done|]. by rewrite app_nil_r.
Qed.

(** The splitter in terms of the loop: the sentences the loop closed, then
    the fragment it was left with. *)
Lemma splitter_unfold text :
  let sentences := re_split (remove_pagination_breaks text) in
  let temp := (merge_loop sentences [] []).2 in
  sophisticated_sentence_splitter text
  = keep_nonblank (merge_loop sentences [] []).1
    ++ keep_nonblank (if truthy temp then [strip temp] else []).
Proof.
  unfold sophisticated_sentence_splitter. simpl.
  destruct (merge_loop _ [] []) as [refined temp]. simpl.
  destruct (truthy temp).
  - apply keep_nonblank_app.
  - by rewrite app_nil_r.
Qed.

End Merge.

(** ** The sentences of the heuristic splitter *)

Section Sentences.

Implicit Types (text temp : str).

Lemma tail_without_space temp :
  without_space (concat (if truthy temp then [strip temp] else []))
  = without_space temp.
Proof.
  destruct temp; [done|]. cbn [truthy concat].
  by rewrite app_nil_r, without_space_strip.
Qed.

Lemma tail_quotes temp :
  count dquote (concat (if truthy temp then [strip temp] else []))
  = count dquote temp.
Proof.
  destruct temp; [done|]. cbn [truthy concat].
  by rewrite app_nil_r, count_strip.
Qed.

Lemma tail_short temp :
  (length (keep_nonblank (if truthy temp then [strip temp] else [])) ≤ 1)%nat.
Proof.
  destruct (truthy temp); [|simpl; lia].
  rewrite keep_nonblank_cons. destruct (truthy _); simpl; lia.
Qed.

(** The sentences closed by the loop, for a run from empty accumulators. *)
Lemma merge_loop_start l :
  Forall balanced (merge_loop l [] []).1
  ∧ without_space (concat (merge_loop l [] []).1 ++ (merge_loop l [] []).2)
    = without_space (concat (strings_of l))
  ∧ (count dquote (concat (merge_loop l [] []).1)
     + count dquote (merge_loop l [] []).2
     = count dquote (concat (strings_of l)))%nat.
Proof.
  destruct (merge_loop_spec l [] []) as (new & H1 & H2 & H3 & H4).
  simpl in H1. rewrite H1. by split; [|split].
Qed.

Lemma splitter_quotes text :
  count dquote (concat (sophisticated_sentence_splitter text))
  = count dquote text.
Proof.
  rewrite splitter_unfold. cbv zeta.
  destruct (merge_loop_start (re_split (remove_pagination_breaks text)))
    as (_ & _ & H).
  rewrite concat_app, count_app, !keep_nonblank_quotes, tail_quotes, H.
  by rewrite re_split_quotes, remove_pagination_breaks_quotes.
Qed.

End Sentences.

(** C5. Every sentence of the heuristic splitter is trimmed and not empty.
    Wherever the result is cut in two with a sentence still to come, the
    sentences before the cut hold an even number of double quotes, and the
    result has the double quotes of the text, all of them: a boundary never
    falls after an odd number of double quotes. On
    [He said "Stop. Now." and left.] the result is a single sentence. *)
Theorem splitter_sentences_spec :
  (∀ text,
     Forall (λ s, s ≠ [] ∧ strip s = s) (sophisticated_sentence_splitter text))
  ∧ (∀ text before after,
       sophisticated_sentence_splitter text = before ++ after →
       after ≠ [] →
       Nat.even (count dquote (concat before)) = true)
  ∧ (∀ text,
       count dquote (concat (sophisticated_sentence_splitter text))
       = count dquote text)
  ∧ sophisticated_sentence_splitter
      (lit "He said " ++ dquote :: lit "Stop. Now." ++ dquote :: lit " and left.")
    = [lit "He said " ++ dquote :: lit "Stop Now" ++ dquote :: lit " and left"].
Proof.
  split; [|split; [|split]].
  - intros text. rewrite splitter_unfold. cbv zeta.
    apply Forall_app. split; apply keep_nonblank_trimmed.
  - intros text before after Hsplit Hafter.
    rewrite splitter_unfold in Hsplit. cbv zeta in Hsplit.
    set (sentences := re_split (remove_pagination_breaks text)) in *.
    destruct (merge_loop_start sentences) as (Hbal & _ & _).
    apply keep_nonblank_balanced in Hbal.
    pose proof (tail_short (merge_loop sentences [] []).2) as Hshort.
    set (closed := keep_nonblank (merge_loop sentences [] []).1) in *.
    set (tail := keep_nonblank _) in *.
    assert (length before ≤ length closed)%nat as Hlen.
    { apply (f_equal length) in Hsplit. rewrite !length_app in Hsplit.
      destruct after; [done|]. simpl in Hsplit. lia. }
    assert (before = take (length before) closed) as ->.
    { transitivity (take (length before) (before ++ after));
        [by rewrite take_app_length|].
      rewrite <-Hsplit. by apply take_app_le. }
    apply balanced_concat. by apply Forall_take.
  - apply splitter_quotes.
  - by vm_compute.
Qed.

Lemma splitter_sentences_spec_witness :
  Nat.even (count dquote (concat [lit "One"])) = true.
Proof.
  apply (proj1 (proj2 splitter_sentences_spec) (lit "One. Two.") [lit "One"] [lit "Two"]).
  - reflexivity.
  - discriminate.
Defined.

(** C10. When the text has an odd number of double quotes, the fragment the
    re-merge loop is left with is not empty, is not blank, and its trimmed
    form is the last sentence of the result. *)
Theorem unbalanced_tail_emitted text :
  Nat.odd (count dquote text) = true →
  let temp_sentence :=
    (merge_loop (re_split (remove_pagination_breaks text)) [] []).2 in
  temp_sentence ≠ []
  ∧ strip temp_sentence ≠ []
  ∧ Nat.odd (count dquote temp_sentence) = true
  ∧ ∃ body, sophisticated_sentence_splitter text = body ++ [strip temp_sentence].
Proof.
  intros Hodd temp.
  pose proof (splitter_unfold text) as Hsplit. cbv zeta in Hsplit.
  destruct (merge_loop_start (re_split (remove_pagination_breaks text)))
    as (Hbal & _ & Hcount).
  fold temp in Hsplit, Hcount.
  rewrite re_split_quotes, remove_pagination_breaks_quotes in Hcount.
  apply balanced_concat in Hbal. unfold balanced in Hbal.
  assert (Nat.odd (count dquote temp) = true) as Htemp.
  { rewrite <-Hcount in Hodd. rewrite Nat.odd_add in Hodd.
    rewrite <-Nat.negb_even, Hbal in Hodd. done. }
  assert (temp ≠ []) as Hne by (by intros E; rewrite E in Htemp).
  assert (strip temp ≠ []) as Hstrip.
  { intros E. rewrite <-(count_strip dquote temp), E in Htemp by done. done. }
  split; [done|]. split; [done|]. split; [done|].
  eexists. rewrite Hsplit. f_equal.
  apply truthy_true in Hne. rewrite Hne.
  rewrite keep_nonblank_cons, strip_strip.
  apply truthy_true in Hstrip. by rewrite Hstrip.
Qed.

Lemma unbalanced_tail_emitted_witness :
  ∃ body,
    sophisticated_sentence_splitter (lit "Done. He said " ++ dquote :: lit "Stop. Now")
    = body ++ [lit "He said " ++ dquote :: lit "Stop Now"].
Proof.
  apply (unbalanced_tail_emitted (lit "Done. He said " ++ dquote :: lit "Stop. Now")).
  reflexivity.
Defined.

(** C2, as the code has it. Up to whitespace, the sentences concatenated in
    order are the strings [re.split] returns for the cleaned-up text, that
    is the cleaned-up text without the matches of the pattern; every match is
    a non-empty run of periods, exclamation marks, question marks and
    whitespace. *)
Theorem splitter_keeps_text_between_matches text :
  let cleaned := remove_pagination_breaks text in
  without_space (concat (sophisticated_sentence_splitter text))
  = without_space (concat (strings_of (re_split cleaned)))
  ∧ concat (map chunk_text (find_matches cleaned)) = cleaned
  ∧ strings_of (re_split cleaned)
    = omap split_item (find_matches cleaned)
  ∧ Forall (λ m, m ≠ [] ∧ Forall (λ c, is_delimiter c = true) m)
           (matched_of (find_matches cleaned)).
Proof.
  intros cleaned. split; [|split; [|split]].
  - rewrite splitter_unfold. cbv zeta. fold cleaned.
    destruct (merge_loop_start (re_split cleaned)) as (_ & H & _).
    rewrite concat_app, without_space_app, !keep_nonblank_without_space.
    by rewrite tail_without_space, <-without_space_app.
  - unfold find_matches. apply scan_concat.
  - unfold re_split. induction (find_matches cleaned) as [|[] l IH]; simpl;
      by rewrite ?IH.
  - apply scan_matched.
Qed.

(** C2, as stated, fails: the periods of the text are not in the sentences. *)
Lemma splitter_loses_periods :
  without_space (concat (sophisticated_sentence_splitter (lit "Hello. World.")))
  ≠ without_space (lit "Hello. World.").
Proof. by vm_compute. Qed.

(** ** The segment loop and the transcript file *)

Section AssemblerFacts.

Context {float time : Type}.
Variable round : float → Z → float.

Implicit Types (segments : list (segment float)) (w : world).

Lemma segment_loop_spec segments text dicts :
  segment_loop round segments text dicts
  = (text ++ lines_of segments, dicts ++ map (make_metadata round) segments).
Proof.
  revert text dicts. induction segments as [|s segments IH]; intros text dicts.
  - simpl. by rewrite !app_nil_r.
  - simpl. rewrite IH. unfold lines_of. simpl.
    by rewrite <-!(assoc_L (++)).
Qed.

(** What the function does when the engine hands back a generator that
    yields [segments] and ends. *)
Lemma transcript_of_generator audio_file_name segments
    (request_time now : time) w :
  compute_transcript_with_whisper_from_audio_func round audio_file_name
    (Return (SegGenerator segments None)) request_time now w
  = (Return (Transcript (lines_of segments)
                        (map (make_metadata round) segments) []),
     write_file (transcript_path audio_file_name) (lines_of segments) w).
Proof.
  unfold compute_transcript_with_whisper_from_audio_func. simpl.
  by rewrite segment_loop_spec.
Qed.

(** The early return: an empty list is false, the tuple of eight comes back
    and no file is written. A generator never takes this branch. *)
Remark transcript_of_empty_list audio_file_name (request_time now : time) w :
  compute_transcript_with_whisper_from_audio_func round audio_file_name
    (Return (SegList [])) request_time now w
  = (Return (NoSegments request_time now), w).
Proof. done. Qed.

(** C6. For a sequence of segments the engine yields, the combined text is
    the texts in order, each followed by one newline; the metadata records
    are as many as the segments, in the same order, each with the text of
    its segment and with start, end and avg_logprob rounded to 2 places;
    the same holds for a list that is not empty; no segments give the empty
    text and no record. *)
Theorem assembler_spec audio_file_name (request_time now : time) w :
  (∀ segments,
     ∃ text dicts,
       compute_transcript_with_whisper_from_audio_func round audio_file_name
         (Return (SegGenerator segments None)) request_time now w
       = (Return (Transcript text dicts []),
          write_file (transcript_path audio_file_name) text w)
       ∧ text = concat (map (λ s, seg_text s ++ [nl]) segments)
       ∧ length dicts = length segments
       ∧ (∀ i s, segments !! i = Some s →
            dicts !! i = Some (Metadata (round (seg_start s) 2)
                                        (round (seg_end s) 2)
                                        (seg_text s)
                                        (round (seg_avg_logprob s) 2))))
  ∧ (∀ s segments,
       compute_transcript_with_whisper_from_audio_func round audio_file_name
         (Return (SegList (s :: segments))) request_time now w
       = compute_transcript_with_whisper_from_audio_func round audio_file_name
           (Return (SegGenerator (s :: segments) None)) request_time now w)
  ∧ compute_transcript_with_whisper_from_audio_func round audio_file_name
      (Return (SegGenerator [] None)) request_time now w
    = (Return (Transcript [] [] []),
       write_file (transcript_path audio_file_name) [] w).
Proof.
  split; [|split; [done|apply (transcript_of_generator _ [])]].
  intros segments. eexists _, _. split; [apply transcript_of_generator|].
  split; [done|]. split; [by rewrite length_map|].
  intros i s Hi. change (map ?f ?l) with (f <$> l).
  by rewrite list_lookup_fmap, Hi.
Qed.


End AssemblerFacts.

Lemma assembler_spec_witness :
  ∃ text dicts,
    compute_transcript_with_whisper_from_audio_func (λ x _, x) (lit "talk")
      (Return (SegGenerator [Segment 0%Z 2%Z (lit "hello") (-1)%Z] None))
      0%Z 1%Z (World ∅ [])
    = (Return (Transcript text dicts []),
       write_file (transcript_path (lit "talk")) text (World ∅ []))
    ∧ dicts !! 0%nat = Some (Metadata 0%Z 2%Z (lit "hello") (-1)%Z).
Proof.
  destruct (proj1 (assembler_spec (λ x _, x) (lit "talk") 0%Z 1%Z (World ∅ []))
              [Segment 0%Z 2%Z (lit "hello") (-1)%Z])
    as (text & dicts & H1 & _ & _ & H4).
  exists text, dicts. split; [exact H1|].
  apply (H4 0%nat (Segment 0%Z 2%Z (lit "hello") (-1)%Z)). reflexivity.
Defined.

(** ** The name probe of download_audio *)

Section Probe.

Implicit Types (w : world) (base filename path : str) (counter fuel k : nat).

Lemma lit_inj (a b : string) : lit a = lit b → a = b.
Proof.
  unfold lit. intros H. apply (f_equal string_of_list_ascii) in H.
  by rewrite !string_of_list_ascii_of_string in H.
Qed.

Lemma suffixed_inj base i j : suffixed base i = suffixed base j → i = j.
Proof.
  unfold suffixed. intros H%app_inv_head. injection H as H.
  by apply lit_inj, (inj pretty) in H.
Qed.

Lemma suffixed_ne_base base k : suffixed base k ≠ base.
Proof.
  unfold suffixed. intros H. apply (f_equal length) in H.
  rewrite length_app in H. simpl in H. lia.
Qed.

Lemma candidate_inj base i j : candidate base i = candidate base j → i = j.
Proof.
  destruct i, j; simpl; [done| | |apply suffixed_inj].
  - intros H. symmetry in H. by apply suffixed_ne_base in H.
  - intros H. by apply suffixed_ne_base in H.
Qed.

Lemma mp3_inj a b : mp3 a = mp3 b → a = b.
Proof.
  unfold mp3, path_join. intros H%app_inv_head. injection H as H.
  by apply app_inv_tail in H.
Qed.

Lemma exists_path_true w path :
  exists_path w path = true ↔ path ∈ dom (files w).
Proof.
  unfold exists_path. rewrite bool_decide_eq_true. by rewrite elem_of_dom.
Qed.

(** What the loop returns: a free path, reached after the paths of all the
    names tried before it were found taken. *)
Lemma probe_some fuel w base filename counter path name :
  probe fuel w base filename counter = Some (path, name) →
  path = mp3 name
  ∧ exists_path w path = false
  ∧ (name = filename
     ∨ exists_path w (mp3 filename) = true
       ∧ ∃ k, (counter ≤ k)%nat ∧ name = suffixed base k
              ∧ ∀ j, (counter ≤ j < k)%nat →
                     exists_path w (mp3 (suffixed base j)) = true).
Proof.
  revert filename counter.
  induction fuel as [|fuel IH]; intros filename counter; simpl;
    destruct (exists_path w (mp3 filename)) eqn:E;
    try done; try (intros [= <- <-]; by auto).
  intros (-> & Hfree & Hname)%IH. split; [done|]. split; [done|].
  right. split; [done|]. destruct Hname as [->|(Hc & k & Hk & -> & Hall)].
  - exists counter. split; [done|]. split; [done|]. intros j ?. lia.
  - exists k. split; [lia|]. split; [done|]. intros j Hj.
    destruct (decide (j = counter)) as [->|]; [done|]. apply Hall. lia.
Qed.

(** When the fuel runs out, every path tried was taken. *)
Lemma probe_none fuel w base filename counter :
  probe fuel w base filename counter = None →
  ∀ j, (counter ≤ j < counter + fuel)%nat →
       exists_path w (mp3 (suffixed base j)) = true.
Proof.
  revert filename counter.
  induction fuel as [|fuel IH]; intros filename counter; simpl;
    destruct (exists_path w (mp3 filename)) eqn:E; try done.
  { intros _ j ?. lia. }
  intros Hnone j Hj. destruct (decide (j = counter)) as [->|].
  - destruct fuel; simpl in Hnone;
      by destruct (exists_path w (mp3 (suffixed base counter))).
  - apply (IH _ _ Hnone). lia.
Qed.

(** The loop ends: the numbered paths are all different, and there are only
    so many files. *)
Lemma probe_total w base filename counter :
  is_Some (probe (probe_fuel w) w base filename counter).
Proof.
  destruct (probe _ _ _ _ _) as [r|] eqn:E; [done|]. exfalso.
  pose proof (probe_none _ _ _ _ _ E) as Hall.
  set (n := size (files w)) in *. unfold probe_fuel in Hall. fold n in Hall.
  set (paths := (λ j, mp3 (suffixed base j)) <$> seq counter (S n)).
  assert (NoDup paths) as Hnodup.
  { apply NoDup_fmap_2; [|apply NoDup_seq].
    intros i j Hij. by apply mp3_inj, suffixed_inj in Hij. }
  assert (list_to_set paths ⊆ dom (files w)) as Hsub.
  { intros p Hp. apply elem_of_list_to_set, list_elem_of_fmap in Hp
      as (j & -> & Hj%elem_of_seq).
    apply exists_path_true, Hall. lia. }
  apply subseteq_size in Hsub.
  rewrite size_list_to_set, size_dom in Hsub by done.
  unfold paths in Hsub. rewrite length_fmap, length_seq in Hsub.
  fold n in Hsub. lia.
Qed.

Lemma download_audio_total v w : is_Some (download_audio v w).
Proof.
  unfold download_audio. destruct (title_error v); [done|].
  unfold download_titled.
  destruct (probe_total w (clean_filename (title v)) (clean_filename (title v)) 1)
    as [[path name] ->]. done.
Qed.

End Probe.

(** ** Repeated acquisitions *)

Section Acquisitions.

Implicit Types (w : world) (base path name : str) (v : video) (n k : nat).

Lemma exists_path_write path content w p :
  exists_path (write_file path content w) p
  = bool_decide (p = path) || exists_path w p.
Proof.
  unfold exists_path, write_file. simpl.
  destruct (decide (p = path)) as [->|Hne].
  - rewrite lookup_insert_eq, bool_decide_eq_true_2 by done.
    by rewrite bool_decide_eq_true_2.
  - rewrite lookup_insert_ne by done.
    by rewrite (bool_decide_eq_false_2 (p = path)).
Qed.

Lemma download_audio_free v w path name w' :
  download_audio v w = Some (Return (Some path, Some name), w') →
  let base := clean_filename (title v) in
  path = mp3 name
  ∧ exists_path w path = false
  ∧ exists_path w' path = true
  ∧ (exists_path w (mp3 base) = true →
     ∃ k, (1 ≤ k)%nat ∧ name = suffixed base k
          ∧ ∀ j, (1 ≤ j < k)%nat →
                 exists_path w (mp3 (suffixed base j)) = true).
Proof.
  intros H. unfold download_audio in H. destruct (title_error v); [done|].
  unfold download_titled in H. cbv zeta in *.
  set (base := clean_filename (title v)) in *.
  destruct (probe _ w base base 1) as [[p nm]|] eqn:E; [|done].
  destruct (probe_some _ _ _ _ _ _ _ E) as (-> & Hfree & Hname).
  unfold fetch in H. rewrite Hfree in H. simpl in H.
  destruct (first_audio_stream v) as [[[[content|e]]|]|e]; try done.
  injection H as <- <- <-. split; [done|]. split; [done|].
  split; [by rewrite exists_path_write, bool_decide_eq_true_2|].
  intros Hbase. destruct Hname as [->|(_ & k & Hk & -> & Hall)]; [congruence|].
  by exists k.
Qed.

Lemma download_audio_next base n v w :
  downloadable base v → taken_up_to base n w →
  ∃ content,
    download_audio v w
    = Some (Return (Some (mp3 (candidate base n)), Some (candidate base n)),
            write_file (mp3 (candidate base n)) content w).
Proof.
  intros (Htitle & Hbase & [content Hstream]) Hinv. exists content.
  unfold download_audio. rewrite Htitle. unfold download_titled. rewrite Hbase.
  destruct (probe_total w base base 1) as [[p nm] E]. rewrite E.
  destruct (probe_some _ _ _ _ _ _ _ E) as (-> & Hfree & Hname).
  assert (nm = candidate base n) as ->.
  { destruct Hname as [->|(Htaken & k & Hk & -> & Hall)].
    - destruct n; [done|]. pose proof (proj2 (Hinv 0%nat) ltac:(lia)) as H0.
      simpl in H0. congruence.
    - pose proof (proj1 (Hinv 0%nat) Htaken) as Hn.
      destruct k as [|k]; [lia|]. change (suffixed base (S k)) with (candidate base (S k)) in *.
      destruct (decide (S k = n)) as [<-|Hne]; [done|]. exfalso.
      destruct (decide (S k < n)%nat) as [Hlt|Hge].
      + apply Hinv in Hlt. congruence.
      + assert (exists_path w (mp3 (candidate base n)) = true) as Hn'.
        { destruct n as [|n]; [lia|]. apply Hall. lia. }
        apply Hinv in Hn'. lia. }
  unfold fetch. rewrite Hfree, Hstream. done.
Qed.

Lemma taken_up_to_write base n content w :
  taken_up_to base n w →
  taken_up_to base (S n) (write_file (mp3 (candidate base n)) content w).
Proof.
  intros Hinv k. rewrite exists_path_write, orb_true_iff, bool_decide_eq_true.
  rewrite (Hinv k). split.
  - intros [Hk%mp3_inj%candidate_inj|Hk]; lia.
  - intros Hk. destruct (decide (k = n)) as [->|]; [by left|right; lia].
Qed.

Lemma download_all_numbered base videos n w :
  Forall (downloadable base) videos → taken_up_to base n w →
  (download_all videos w).1
  = map (λ k, Return (Some (mp3 (candidate base k)), Some (candidate base k)))
        (seq n (length videos)).
Proof.
  intros Hall. revert n w. induction Hall as [|v videos Hv _ IH]; intros n w Hinv.
  - done.
  - simpl. destruct (download_audio_next base n v w Hv Hinv) as [content ->].
    specialize (IH (S n) _ (taken_up_to_write base n content w Hinv)).
    destruct (download_all videos _) as [rs w'']. simpl in *. by rewrite IH.
Qed.

End Acquisitions.

(** C7. [download_audio] always finds a name. The path it returns was not on
    disk before the call and is there after it; when the path of the
    sanitized title was taken, the name carries a numeric suffix, the first
    one whose path was free. Acquisitions of N titles with the same sanitized
    name, on a disk with none of the names, return the plain name and then
    the suffixes _1 to _N-1, N different paths. *)
Theorem download_audio_fresh_paths :
  (∀ v w, is_Some (download_audio v w))
  ∧ (∀ v w path name w',
       download_audio v w = Some (Return (Some path, Some name), w') →
       exists_path w (mp3 (clean_filename (title v))) = true →
       path = mp3 name
       ∧ exists_path w path = false
       ∧ exists_path w' path = true
       ∧ ∃ k, (1 ≤ k)%nat ∧ name = suffixed (clean_filename (title v)) k
              ∧ ∀ j, (1 ≤ j < k)%nat →
                  exists_path w (mp3 (suffixed (clean_filename (title v)) j)) = true)
  ∧ (∀ base videos w,
       Forall (downloadable base) videos →
       (∀ k, exists_path w (mp3 (candidate base k)) = false) →
       let paths := map (λ k, mp3 (candidate base k)) (seq 0 (length videos)) in
       (download_all videos w).1
       = map (λ k, Return (Some (mp3 (candidate base k)), Some (candidate base k)))
             (seq 0 (length videos))
       ∧ NoDup paths
       ∧ ∀ k, (1 ≤ k < length videos)%nat →
              paths !! k = Some (mp3 (base ++ underscore :: lit (pretty k)))).
Proof.
  split; [apply download_audio_total|]. split.
  - intros v w path name w' H Htaken.
    destruct (download_audio_free _ _ _ _ _ H) as (H1 & H2 & H3 & H4). auto.
  - intros base videos w Hall Hfree paths. split; [|split].
    + apply download_all_numbered; [done|]. intros k. rewrite Hfree. split; [done|lia].
    + unfold paths. change (map ?f ?l) with (f <$> l).
      apply NoDup_fmap_2; [|apply NoDup_seq].
      intros i j Hij. by apply mp3_inj, candidate_inj in Hij.
    + intros k Hk. unfold paths. change (map ?f ?l) with (f <$> l).
      rewrite list_lookup_fmap, lookup_seq_lt by lia. simpl.
      destruct k; [lia|done].
Qed.

(** ** The gate and the tasks of process_video_or_playlist *)

Module OrchestratorFacts.
Import Orchestrator.

Section Run.

Context {float time : Type}.
Variable round : float → Z → float.
Variable videos : list video.

Implicit Types (s : state) (p old new : phase) (i j : nat) (f : phase → bool).

Abbreviation step := (step (time:=time) round videos).
Abbreviation reachable := (reachable (time:=time) round videos).

Lemma filter_cons_bool f p (l : list phase) :
  filter (λ p, f p) (p :: l)
  = if f p then p :: filter (λ p, f p) l else filter (λ p, f p) l.
Proof.
  destruct (f p) eqn:E.
  - rewrite filter_cons_True; [done|]. by apply Is_true_true_2.
  - rewrite filter_cons_False; [done|]. intros ?%Is_true_true_1. congruence.
Qed.

Lemma count_insert f (l : list phase) i old new :
  l !! i = Some old →
  (length (filter (λ p, f p) (<[i:=new]> l)) + b2n (f old)
   = length (filter (λ p, f p) l) + b2n (f new))%nat.
Proof.
  revert i. induction l as [|p l IH]; intros i Hi; [done|].
  destruct i as [|i]; simpl in Hi |- *.
  - injection Hi as ->. rewrite !filter_cons_bool.
    destruct (f old), (f new); simpl; lia.
  - specialize (IH i Hi). rewrite !filter_cons_bool.
    destruct (f p); simpl; lia.
Qed.

Lemma sum_insert (g : phase → nat) (l : list phase) i old new :
  l !! i = Some old →
  (sum_list (map g (<[i:=new]> l)) + g old = sum_list (map g l) + g new)%nat.
Proof.
  revert i. induction l as [|p l IH]; intros i Hi; [done|].
  destruct i as [|i]; simpl in Hi |- *.
  - injection Hi as ->. lia.
  - specialize (IH i Hi). lia.
Qed.

(** What a step is: either the return of [gather], or one task moving
    one phase on; the permits move with the task entering and leaving
    the [async with] block. *)
Lemma step_shape s s' :
  step s s' →
  returned s = false
  ∧ ((returned s' = true ∧ phases s' = phases s ∧ permits s' = permits s
      ∧ env s' = env s ∧ Forall (λ p, terminal p = true) (phases s))
     ∨ ∃ i old new,
         returned s' = false
         ∧ phases s !! i = Some old
         ∧ phases s' = <[i:=new]> (phases s)
         ∧ (remaining new < remaining old)%nat
         ∧ (permits s' + b2n (holds_permit new)
            = permits s + b2n (holds_permit old))%nat).
Proof.
  destruct 1; (split; [done|]);
    try (right; eexists i, _, _; simpl; unfold set_phase;
         split; [done|]; split; [eassumption|]; split; [done|];
         simpl; split; lia).
  left. done.
Qed.


Lemma nobody_holds_at_start (vs : list video) :
  length (filter (λ p, holds_permit p) (map (λ _, Pending) vs)) = 0%nat.
Proof. induction vs as [|v vs IH]; [done|]. simpl. by rewrite filter_cons_bool. Qed.

(** The permits and the tasks inside the gate add up to the capacity. *)
Lemma gate_invariant cap w0 s :
  reachable (init cap videos w0) s →
  (permits s + count_phase holds_permit s = cap)%nat
  ∧ length (phases s) = length videos.
Proof.
  induction 1 as [|s s' _ [IH1 IH2] Hstep].
  - unfold count_phase, init. simpl.
    rewrite length_map, nobody_holds_at_start. split; [lia|done].
  - destruct (step_shape _ _ Hstep)
      as [_ [(_ & Hp & Hn & _)|(i & old & new & _ & Hi & Hp & _ & Hn)]].
    + unfold count_phase. by rewrite Hp, Hn.
    + unfold count_phase in *. rewrite Hp, length_insert. split; [|done].
      pose proof (count_insert holds_permit _ _ _ new Hi). lia.
Qed.


Lemma step_decreases s s' : step s s' → (steps_left s' < steps_left s)%nat.
Proof.
  intros Hstep. unfold steps_left.
  destruct (step_shape _ _ Hstep)
    as [-> [(-> & -> & _)|(i & old & new & -> & Hi & -> & Hlt & _)]].
  - lia.
  - pose proof (sum_insert remaining _ _ _ new Hi). lia.
Qed.






(** What a step does to the permits, task by task. *)
Lemma step_permits s s' i :
  step s s' →
  match phases s !! i, phases s' !! i with
  | Some Pending, Some Downloading =>
      (0 < permits s)%nat ∧ permits s' = (permits s - 1)%nat
  | Some Downloading, Some (Transcribing _) => permits s' = permits s
  | Some Downloading, Some (Done | Failed | Escaped _)
  | Some (Transcribing _), Some (Done | Failed | Escaped _) =>
      permits s' = (permits s + 1)%nat
  | Some p, Some p' => p' = p
  | _, _ => True
  end.
Proof.
  intros Hstep.
  destruct Hstep as [k|k|k|k|k|k| |k|k];
    simpl in *; unfold set_phase in *;
    try (destruct (decide (k = i)) as [->|Hne];
         [rewrite list_lookup_insert_eq by (by eapply lookup_lt_Some);
          by match goal with H : phases _ !! _ = Some _ |- _ => rewrite H end
         |rewrite list_lookup_insert_ne by done;
          by destruct (phases s !! i) as [[]|]]).
  by destruct (phases s !! i) as [[]|].
Qed.

Lemma count_holders s :
  count_phase holds_permit s
  = (count_phase in_download s + count_phase in_transcription s)%nat.
Proof.
  unfold count_phase. induction (phases s) as [|p l IH]; [done|].
  rewrite !filter_cons_bool. destruct p; simpl in *; lia.
Qed.

Lemma phases_at_start cap w0 i p :
  phases (init cap videos w0) !! i = Some p → p = Pending.
Proof.
  unfold init. simpl. change (map ?f ?l) with (f <$> l).
  rewrite list_lookup_fmap. by destruct (videos !! i); intros [=].
Qed.

(** Without a permit the first state of a run with a video has no step. *)
Lemma stuck_without_permit w0 :
  videos ≠ [] → ¬ ∃ s', step (init 0 videos w0) s'.
Proof.
  intros Hne [s' Hstep].
  inversion Hstep as [i ? ? Hi Hp|i ? ? ? ? ? ? Hi|i ? ? ? ? ? Hi
                      |i ? ? ? ? ? Hi|i ? ? ? ? ? ? ? ? ? Hi
                      |i ? ? ? ? ? ? ? ? ? Hi|? ? Hall
                      |i ? ? ? ? ? ? Hi|i ? ? ? ? ? ? ? ? ? ? Hi]; subst;
    try (apply phases_at_start in Hi; done).
  - simpl in Hp. lia.
  - destruct videos; [done|]. simpl in Hall. by inversion_clear Hall.
Qed.




End Run.

End OrchestratorFacts.

Import Orchestrator OrchestratorFacts.



(** C1, as the code has it. The tasks in their download and the tasks in
    their transcription together hold the permits that are missing from the
    gate. A task takes a permit when it enters its download, keeps it when
    the download has succeeded and the transcription starts, and gives it
    back when it ends, be it after a download that failed or was skipped or
    after the transcription. *)
Theorem gate_held_through_transcription {float time : Type}
    (round : float → Z → float) (videos : list video) (cap : nat) (w0 : world)
    (s : state) :
  reachable (time:=time) round videos (init cap videos w0) s →
  (count_phase in_download s + count_phase in_transcription s + permits s
   = cap)%nat
  ∧ ∀ s' i,
      step (time:=time) round videos s s' →
      match phases s !! i, phases s' !! i with
      | Some Pending, Some Downloading =>
          (0 < permits s)%nat ∧ permits s' = (permits s - 1)%nat
      | Some Downloading, Some (Transcribing _) => permits s' = permits s
      | Some Downloading, Some (Done | Failed | Escaped _)
      | Some (Transcribing _), Some (Done | Failed | Escaped _) =>
          permits s' = (permits s + 1)%nat
      | Some p, Some p' => p' = p
      | _, _ => True
      end.
Proof.
  intros Hreach. split.
  - destruct (gate_invariant _ _ _ _ _ Hreach) as [Hgate _].
    rewrite count_holders in Hgate. lia.
  - intros s' i. apply step_permits.
Qed.

(** ** Two videos and one permit *)

(** C1, as stated, fails. With one permit and two videos, the first task can
    be in its transcription with the second still waiting at the gate: the
    gate is then empty, the only steps there are leave the second task
    waiting, and in no state of the run are two tasks past the gate. *)
Lemma download_does_not_release_gate :
  let videos := [sample_video "a"; sample_video "b"] in
  let start := init 1 videos empty_disk in
  (∃ s,
     reachable (float:=Z) (time:=Z) (λ x _, x) videos start s
     ∧ phases s = [Transcribing (lit "a"); Pending]
     ∧ permits s = 0%nat
     ∧ ∀ s', step (float:=Z) (time:=Z) (λ x _, x) videos s s' →
             phases s' !! 1%nat = Some Pending)
  ∧ ∀ s,
      reachable (float:=Z) (time:=Z) (λ x _, x) videos start s →
      (count_phase in_download s + count_phase in_transcription s ≤ 1)%nat.
Proof.
  intros videos start. split.
  - eexists. split; [|split; [|split]].
    + eapply reach_step; [eapply reach_step; [apply reach_init|]|].
      * apply (step_acquire _ _ 0%nat); [done|done|simpl; lia].
      * by eapply (step_download_ok _ _ 0%nat (sample_video "a")).
    + done.
    + done.
    + intros s' Hstep. inversion Hstep as [i|i|i|i|i|i| |i|i]; subst; simpl in *;
        try (destruct i as [|[|i]]; simplify_eq; done).
      * lia.
      * by repeat match goal with H : Forall _ (_ :: _) |- _ => inversion_clear H end.
  - intros s Hreach.
    destruct (gate_invariant _ _ _ _ _ Hreach) as [Hgate _].
    rewrite count_holders in Hgate. lia.
Qed.

Lemma gate_held_through_transcription_witness :
  (count_phase in_download
     (State 1 [Transcribing (lit "a"); Pending]
            (write_file (mp3 (lit "a")) (lit "audio") empty_disk) false)
   + count_phase in_transcription
       (State 1 [Transcribing (lit "a"); Pending]
              (write_file (mp3 (lit "a")) (lit "audio") empty_disk) false)
   + permits
       (State 1 [Transcribing (lit "a"); Pending]
              (write_file (mp3 (lit "a")) (lit "audio") empty_disk) false)
   = 2)%nat.
Proof.
  apply (gate_held_through_transcription (float:=Z) (time:=Z) (λ x _, x)
           [sample_video "a"; sample_video "b"] 2 empty_disk).
  eapply reach_step with (s := State 1 [Downloading; Pending] empty_disk false).
  - eapply reach_step; [apply reach_init|].
    apply (step_acquire _ _ 0%nat); [done|done|simpl; lia].
  - by apply (step_download_ok _ _ 0%nat (sample_video "a")
                (State 1 [Downloading; Pending] empty_disk false)
                (Some (mp3 (lit "a")), Some (lit "a"))
                (write_file (mp3 (lit "a")) (lit "audio") empty_disk) (lit "a")).
Defined.



Lemma download_audio_fresh_paths_witness :
  (download_all [sample_video "My Talk"; sample_video "my talk!"; sample_video "MY-TALK"]
                empty_disk).1
  = [Return (Some (lit "downloaded_audio/my_talk.mp3"), Some (lit "my_talk"));
     Return (Some (lit "downloaded_audio/my_talk_1.mp3"), Some (lit "my_talk_1"));
     Return (Some (lit "downloaded_audio/my_talk_2.mp3"), Some (lit "my_talk_2"))]
  ∧ ∃ k, (1 ≤ k)%nat ∧ lit "a_1" = suffixed (clean_filename (lit "a")) k.
Proof.
  split.
  - apply (proj2 (proj2 download_audio_fresh_paths) (lit "my_talk")
             [sample_video "My Talk"; sample_video "my talk!"; sample_video "MY-TALK"]
             empty_disk).
    + repeat constructor; by eexists.
    + intros k. reflexivity.
  - destruct (proj1 (proj2 download_audio_fresh_paths) (sample_video "a")
                (World {[ lit "downloaded_audio/a.mp3" := lit "old" ]} [])
                (lit "downloaded_audio/a_1.mp3") (lit "a_1")
                (World (<[ lit "downloaded_audio/a_1.mp3" := lit "audio" ]>
                          {[ lit "downloaded_audio/a.mp3" := lit "old" ]}) []))
      as (_ & _ & _ & k & Hk & Hname & _).
    + by vm_compute.
    + by vm_compute.
    + by exists k.
Defined.

(** * Further properties *)

(** ** The pagination cleanup, beyond its two substitutions *)

Section PaginationMore.

Implicit Types (s text : str) (c : ascii).

Lemma dehyphenate_no_nl s : no_char (is_char 10) s → dehyphenate s = s.
Proof.
  induction 1 as [|c s Hc Hs IH]; [done|].
  destruct s as [|n r]; [done|].
  rewrite dehyphenate_cons2. inversion_clear Hs as [|?? Hn _].
  rewrite Hn, andb_false_r. cbn [andb]. by rewrite IH.
Qed.

Lemma join_wrapped_no_nl prev s :
  no_char (is_char 10) s → join_wrapped prev s = s.
Proof.
  intros H. revert prev. induction H as [|c s Hc _ IH]; intros prev; [done|].
  simpl. by rewrite Hc, IH.
Qed.

(** A text without a line break goes through the cleanup unchanged. *)
Theorem cleanup_without_line_break text :
  nl ∉ text → remove_pagination_breaks text = text.
Proof.
  intros Hnl. assert (no_char (is_char 10) text) as H.
  { apply Forall_forall. intros c Hc.
    destruct (is_char 10 c) eqn:E; [|done].
    apply is_char_eq in E. by subst. }
  unfold remove_pagination_breaks.
  by rewrite dehyphenate_no_nl, join_wrapped_no_nl.
Qed.

Lemma cleanup_without_line_break_witness :
  remove_pagination_breaks (lit "well-known fact. Next") = lit "well-known fact. Next".
Proof.
  apply cleanup_without_line_break. apply (bool_decide_unpack _). by vm_compute.
Defined.

Lemma filter_untouched_cons c s :
  filter (λ c, untouched c) (c :: s)
  = if untouched c then c :: filter (λ c, untouched c) s
    else filter (λ c, untouched c) s.
Proof.
  destruct (untouched c) eqn:E.
  - rewrite filter_cons_True; [done|]. by apply Is_true_true_2.
  - rewrite filter_cons_False; [done|]. intros ?%Is_true_true_1. congruence.
Qed.

Lemma dehyphenate_untouched s :
  filter (λ c, untouched c) (dehyphenate s) = filter (λ c, untouched c) s
  ∧ (length (dehyphenate s) ≤ length s)%nat.
Proof.
  remember (length s) as k eqn:Hk.
  revert s Hk. induction (lt_wf k) as [k _ IH]. intros s ->.
  destruct s as [|x [|y s]]; [done..|].
  rewrite dehyphenate_cons2.
  destruct (is_char 45 x && is_char 10 y && starts_with az s) eqn:E.
  - apply andb_prop in E as [[->%is_char_eq ->%is_char_eq]%andb_prop _].
    destruct (IH (length s) ltac:(simpl; lia) s eq_refl) as [H1 H2].
    split; [|simpl; lia]. by rewrite H1, !filter_untouched_cons.
  - destruct (IH (length (y :: s)) ltac:(simpl; lia) (y :: s) eq_refl) as [H1 H2].
    split; [|simpl in *; lia].
    by rewrite !(filter_untouched_cons x), H1.
Qed.

Lemma join_wrapped_untouched prev s :
  filter (λ c, untouched c) (join_wrapped prev s) = filter (λ c, untouched c) s
  ∧ length (join_wrapped prev s) = length s.
Proof.
  revert prev. induction s as [|c s IH]; intros prev; [done|].
  simpl. destruct (IH (Some c)) as [H1 H2]. split; [|by rewrite H2].
  destruct (is_char 10 c && _ && _) eqn:E.
  - apply andb_prop in E as [[->%is_char_eq _]%andb_prop _].
    by rewrite !filter_untouched_cons, H1.
  - by rewrite !filter_untouched_cons, H1.
Qed.

(** The cleanup never makes the text longer, and touches hyphens, line
    breaks and spaces only: the other characters come out as they went in,
    all of them and in their order. *)
Theorem cleanup_touches_breaks_only text :
  filter (λ c, untouched c) (remove_pagination_breaks text)
  = filter (λ c, untouched c) text
  ∧ (length (remove_pagination_breaks text) ≤ length text)%nat.
Proof.
  unfold remove_pagination_breaks.
  destruct (join_wrapped_untouched None (dehyphenate text)) as [H1 H2].
  destruct (dehyphenate_untouched text) as [H3 H4].
  split; [by rewrite H1|lia].
Qed.

End PaginationMore.

(** ** The split pattern *)

Section Pattern.

Implicit Types (s r : str) (c d sp : ascii).

Lemma digit_plain d :
  digit09 d = true → re_space d = false ∧ is_char 46 d = false.
Proof. each_char d. Qed.

Lemma alt_period_at_ellipsis r : alt_period (lit "..." ++ r) = Some 1%nat.
Proof. done. Qed.

(** The pattern with its first two alternatives only. *)
Lemma match_at_alt s :
  match_at s
  = match alt_period s with
    | Some n => Some n
    | None => alt_punct_space s
    end.
Proof.
  unfold match_at. destruct (alt_period s) as [n|] eqn:E1; [done|].
  destruct (alt_punct_space s) as [n|] eqn:E2; [done|].
  unfold alt_ellipsis.
  destruct (has_prefix (lit "...") s) eqn:E3; [|done].
  apply has_prefix_app in E3 as [r ->]. by rewrite alt_period_at_ellipsis in E1.
Qed.

(** The third alternative of the pattern never decides: where an ellipsis
    followed by whitespace stands, the first alternative matches, and the
    match is the first period alone. *)
Theorem ellipsis_alternative_never_fires s :
  is_Some (alt_ellipsis s) →
  alt_period s = Some 1%nat ∧ match_at s = Some 1%nat.
Proof.
  unfold alt_ellipsis. intros Hsome.
  destruct (has_prefix (lit "...") s) eqn:E; [|by destruct Hsome].
  apply has_prefix_app in E as [r ->].
  unfold match_at. by rewrite alt_period_at_ellipsis.
Qed.

Lemma ellipsis_alternative_never_fires_witness :
  match_at (lit "... and so on") = Some 1%nat.
Proof.
  apply (ellipsis_alternative_never_fires (lit "... and so on")). by eexists.
Defined.

(** No split inside a decimal number or before a domain token that is
    followed by whitespace: nothing matches at such a period. *)
Theorem no_match_at_decimal_or_domain :
  (∀ d r, digit09 d = true → match_at (period :: d :: r) = None)
  ∧ (∀ sp r, re_space sp = true →
       match_at (period :: lit "com" ++ sp :: r) = None
       ∧ match_at (period :: lit "net" ++ sp :: r) = None
       ∧ match_at (period :: lit "org" ++ sp :: r) = None
       ∧ match_at (period :: lit "io" ++ sp :: r) = None).
Proof.
  split.
  - intros d r Hd. destruct (digit_plain d Hd) as [Hs Hp].
    rewrite match_at_alt.
    unfold alt_period, alt_punct_space. simpl. by rewrite Hd, Hs, !andb_false_r.
  - intros sp r Hsp. rewrite !match_at_alt.
    unfold alt_period, alt_punct_space, lookahead_tld, tld_then_space.
    simpl. by rewrite Hsp.
Qed.

Lemma no_match_at_decimal_or_domain_witness :
  match_at (period :: "5"%char :: lit " percent") = None
  ∧ match_at (period :: lit "com" ++ " "%char :: lit "is up") = None.
Proof.
  split.
  - apply (proj1 no_match_at_decimal_or_domain). reflexivity.
  - apply (proj2 no_match_at_decimal_or_domain " "%char (lit "is up")). reflexivity.
Defined.

(** The domain exclusion needs whitespace on both counts. A period followed
    by whitespace always starts a match, domain token or not; and a domain
    token that is not followed by whitespace (at the end of the text, before
    a comma) does not keep its period from matching. *)
Theorem domain_exclusion_limits :
  (∀ sp r, re_space sp = true → is_Some (match_at (period :: sp :: r)))
  ∧ (∀ sp r, re_space sp = true →
       match_at (period :: sp :: lit "com" ++ sp :: r)
       = Some (S (space_run (sp :: lit "com" ++ sp :: r))))
  ∧ (∀ r, starts_with re_space r = false →
       match_at (period :: lit "com" ++ r) = Some 1%nat
       ∧ match_at (period :: lit "net" ++ r) = Some 1%nat
       ∧ match_at (period :: lit "org" ++ r) = Some 1%nat
       ∧ match_at (period :: lit "io" ++ r) = Some 1%nat).
Proof.
  split; [|split].
  - intros sp r Hsp. rewrite match_at_alt.
    unfold alt_period, alt_punct_space. simpl. rewrite Hsp.
    by destruct (negb _ && negb _).
  - intros sp r Hsp. rewrite match_at_alt.
    unfold alt_period, alt_punct_space, lookahead_tld. simpl.
    rewrite Hsp. simpl. unfold tld_then_space. simpl. by rewrite Hsp.
  - intros r Hr. rewrite !match_at_alt.
    unfold alt_period, lookahead_tld, tld_then_space. simpl.
    by rewrite !drop_0, Hr.
Qed.

Lemma domain_exclusion_limits_witness :
  is_Some (match_at (period :: " "%char :: lit "Next"))
  ∧ match_at (period :: lit "com" ++ lit ", then") = Some 1%nat.
Proof.
  split.
  - apply (proj1 domain_exclusion_limits). reflexivity.
  - apply (proj2 (proj2 domain_exclusion_limits) (lit ", then")). reflexivity.
Defined.

End Pattern.

(** ** The splitter on texts without double quotes or without punctuation *)

Section SentencesMore.

Implicit Types (s text temp : str) (c : ascii) (l : list (option str)).

Lemma keep_nonblank_strip refined :
  keep_nonblank (map strip refined) = keep_nonblank refined.
Proof.
  induction refined as [|s refined IH]; [done|].
  cbn [map]. by rewrite !keep_nonblank_cons, strip_strip, IH.
Qed.

Lemma merge_loop_no_quotes l refined :
  Forall (λ s, count dquote s = 0%nat) (strings_of l) →
  merge_loop l refined [] = (refined ++ map strip (strings_of l), []).
Proof.
  revert refined. induction l as [|[s|] l IH]; intros refined H; simpl in *.
  - by rewrite app_nil_r.
  - inversion_clear H as [|?? Hs Hl]. rewrite Hs. simpl.
    rewrite IH by done. by rewrite <-(assoc_L (++)).
  - by apply IH.
Qed.

Lemma count_concat_zero (pieces : list str) :
  count dquote (concat pieces) = 0%nat →
  Forall (λ s, count dquote s = 0%nat) pieces.
Proof.
  induction pieces as [|s pieces IH]; [constructor|].
  simpl. rewrite count_app. intros H. constructor; [lia|]. apply IH. lia.
Qed.

(** In a text without double quotes nothing is merged: the sentences are the
    strings between the matches, trimmed, the blank ones left out. *)
Theorem sentences_without_quotes text :
  dquote ∉ text →
  sophisticated_sentence_splitter text
  = keep_nonblank (strings_of (re_split (remove_pagination_breaks text))).
Proof.
  intros Hq. assert (count dquote text = 0%nat) as H0.
  { unfold count. induction text as [|c text IH]; [done|].
    apply not_elem_of_cons in Hq as [Hc Hq].
    rewrite filter_cons_False by done. by apply IH. }
  rewrite splitter_unfold. cbv zeta.
  rewrite merge_loop_no_quotes.
  - simpl. by rewrite app_nil_r, keep_nonblank_strip.
  - apply count_concat_zero.
    by rewrite re_split_quotes, remove_pagination_breaks_quotes.
Qed.

Lemma sentences_without_quotes_witness :
  sophisticated_sentence_splitter (lit "One. Two! Three")
  = keep_nonblank (strings_of (re_split (remove_pagination_breaks (lit "One. Two! Three")))).
Proof.
  apply sentences_without_quotes. apply (bool_decide_unpack _). by vm_compute.
Defined.

Lemma dehyphenate_forall (P : ascii → Prop) s :
  Forall P s → Forall P (dehyphenate s).
Proof.
  remember (length s) as k eqn:Hk.
  revert s Hk. induction (lt_wf k) as [k _ IH]. intros s -> H.
  destruct s as [|x [|y s]]; [done..|].
  rewrite dehyphenate_cons2.
  inversion H as [|?? Hx Hys]; subst. inversion Hys as [|?? Hy Hs]; subst.
  destruct (is_char 45 x && is_char 10 y && starts_with az s).
  - exact (IH (length s) ltac:(simpl; lia) s eq_refl Hs).
  - constructor; [done|].
    exact (IH (length (y :: s)) ltac:(simpl; lia) (y :: s) eq_refl Hys).
Qed.

Lemma join_wrapped_forall (P : ascii → Prop) prev s :
  P space → Forall P s → Forall P (join_wrapped prev s).
Proof.
  intros Hsp H. revert prev. induction H as [|c s Hc _ IH]; intros prev; simpl.
  - constructor.
  - constructor; [|apply IH]. by destruct (_ && _ && _).
Qed.

Lemma match_at_needs_mark c s : is_terminal_mark c = false → match_at (c :: s) = None.
Proof.
  intros Hc. rewrite match_at_alt.
  unfold alt_period, alt_punct_space. unfold is_terminal_mark in Hc.
  apply orb_false_elim in Hc as [[H1 H2]%orb_false_elim H3].
  by rewrite H1, H2, H3.
Qed.

Lemma scan_no_mark fuel cur s :
  no_char is_terminal_mark s → scan fuel cur s = [Between (rev cur ++ s)].
Proof.
  intros H. revert fuel cur.
  induction H as [|c s Hc _ IH]; intros fuel cur; destruct fuel; simpl;
    rewrite ?app_nil_r; try done.
  rewrite match_at_needs_mark by done. rewrite IH. simpl.
  by rewrite <-(assoc_L (++)).
Qed.

Lemma strip_all_space s : all_space s → strip s = [].
Proof.
  intros H. unfold strip.
  assert (lstrip s = []) as ->; [|done].
  induction H as [|c s Hc _ IH]; [done|]. simpl. by rewrite Hc.
Qed.

(** A text without a period, an exclamation mark or a question mark is not
    split: it comes back as one sentence, the cleaned-up text trimmed, even
    with an odd number of double quotes; a blank text gives no sentence. *)
Theorem text_without_terminal_marks text :
  no_char is_terminal_mark text →
  sophisticated_sentence_splitter text
  = keep_nonblank [remove_pagination_breaks text]
  ∧ (all_space text → sophisticated_sentence_splitter text = []).
Proof.
  intros H.
  assert (no_char is_terminal_mark (remove_pagination_breaks text)) as Hclean.
  { unfold remove_pagination_breaks. apply join_wrapped_forall; [done|].
    by apply dehyphenate_forall. }
  assert (sophisticated_sentence_splitter text
          = keep_nonblank [remove_pagination_breaks text]) as Hone.
  { rewrite splitter_unfold. cbv zeta. unfold re_split, find_matches.
    rewrite scan_no_mark by done. simpl.
    set (cleaned := remove_pagination_breaks text).
    destruct (Nat.even (count dquote cleaned)) eqn:E; simpl.
    - rewrite app_nil_r. apply (keep_nonblank_strip [cleaned]).
    - destruct cleaned as [|c cleaned]; [done|]. simpl truthy. cbv iota.
      apply (keep_nonblank_strip [c :: cleaned]). }
  split; [done|]. intros Hblank. rewrite Hone.
  rewrite keep_nonblank_cons. rewrite strip_all_space; [done|].
  unfold remove_pagination_breaks. apply join_wrapped_forall; [done|].
  by apply dehyphenate_forall.
Qed.

Lemma text_without_terminal_marks_witness :
  sophisticated_sentence_splitter (lit "  and then " ++ dquote :: lit "well ")
  = keep_nonblank [remove_pagination_breaks (lit "  and then " ++ dquote :: lit "well ")]
  ∧ sophisticated_sentence_splitter (lit "   ") = [].
Proof.
  split.
  - apply text_without_terminal_marks. by repeat constructor.
  - apply (text_without_terminal_marks (lit "   ")); by repeat constructor.
Defined.

End SentencesMore.

(** ** clean_filename: titles that get the same name *)

Section SanitizerMore.

Implicit Types (s t : str) (c : ascii).

Lemma lower_char_classes c :
  keeps (lower_char c) = keeps c ∧ is_sep (lower_char c) = is_sep c.
Proof. each_char c. Qed.

Lemma strip_specials_cons c t :
  strip_specials (c :: t)
  = if keeps c then c :: strip_specials t else strip_specials t.
Proof.
  unfold strip_specials. destruct (keeps c) eqn:E.
  - rewrite filter_cons_True; [done|]. by apply Is_true_true_2.
  - rewrite filter_cons_False; [done|]. intros ?%Is_true_true_1. congruence.
Qed.

Lemma strip_specials_lower t : strip_specials (lower t) = lower (strip_specials t).
Proof.
  induction t as [|c t IH]; [done|].
  cbn [lower map]. fold (lower t). rewrite !strip_specials_cons.
  destruct (lower_char_classes c) as [-> _].
  destruct (keeps c); [|done]. cbn [lower map]. fold (lower (strip_specials t)).
  by rewrite IH.
Qed.

Lemma collapse_runs_lower b s : collapse_runs b (lower s) = lower (collapse_runs b s).
Proof.
  revert b. induction s as [|c s IH]; intros b; [done|].
  cbn [lower map collapse_runs]. fold (lower s).
  destruct (lower_char_classes c) as [_ ->].
  destruct (is_sep c); [destruct b|]; cbn [lower map]; by rewrite IH.
Qed.

Lemma clean_filename_lower s : clean_filename (lower s) = clean_filename s.
Proof.
  rewrite !clean_filename_unstripped.
  by rewrite strip_specials_lower, collapse_runs_lower, lower_lower.
Qed.

(** For a title of code points up to U+00FF the name does not depend on the
    case of the title: the title and its lower-cased form get the same name.
    Beyond that range it can: U+0130 and its lower-cased form get different
    names. *)
Theorem clean_filename_ignores_case :
  (∀ title,
     Wide.latin1 title →
     Wide.clean_filename (Wide.lower title) = Wide.clean_filename title)
  ∧ Wide.clean_filename (Wide.lower [Wide.CapitalIDot])
    ≠ Wide.clean_filename [Wide.CapitalIDot].
Proof.
  split; [|by vm_compute].
  intros title [s ->]%latin1_embed.
  by rewrite embed_lower, !embed_clean_filename, clean_filename_lower.
Qed.

Lemma clean_filename_ignores_case_witness :
  Wide.clean_filename (Wide.lower (Wide.embed (lit "My Talk - Part 2")))
  = Wide.clean_filename (Wide.embed (lit "My Talk - Part 2")).
Proof.
  apply (proj1 clean_filename_ignores_case). by repeat constructor.
Defined.

Lemma collapse_runs_length b s : (length (collapse_runs b s) ≤ length s)%nat.
Proof.
  revert b. induction s as [|c s IH]; intros b; simpl; [done|].
  destruct (is_sep c); [destruct b|]; simpl;
    [pose proof (IH true)|pose proof (IH true)|pose proof (IH false)]; lia.
Qed.

Lemma clean_filename_length s :
  (length (clean_filename s) ≤ length s)%nat.
Proof.
  rewrite clean_filename_unstripped.
  unfold lower. rewrite length_map.
  pose proof (collapse_runs_length false (strip_specials s)).
  assert (length (strip_specials s) ≤ length s)%nat; [|lia].
  unfold strip_specials. apply length_filter.
Qed.

(** For a title of code points up to U+00FF the name is never longer than
    the title; beyond that range it can be: the one character U+0130 gets a
    name of two. A title made only of characters that are stripped (no word
    character, whitespace or hyphen) gives the empty name. *)
Theorem clean_filename_degenerate :
  (∀ title,
     Wide.latin1 title →
     (length (Wide.clean_filename title) ≤ length title)%nat)
  ∧ length (Wide.clean_filename [Wide.CapitalIDot]) = 2%nat
  ∧ (∀ title,
       Forall (λ u, Wide.keeps u = false) title → Wide.clean_filename title = []).
Proof.
  split; [|split; [done|]].
  - intros title [s ->]%latin1_embed. rewrite embed_clean_filename.
    unfold Wide.embed. rewrite !length_map. apply clean_filename_length.
  - intros title H. unfold Wide.clean_filename.
    assert (Wide.strip_specials title = []) as ->; [|done].
    unfold Wide.strip_specials. induction H as [|u t Hu _ IH]; [done|].
    rewrite filter_cons_False; [done|]. rewrite Hu. by intros [].
Qed.

Lemma clean_filename_degenerate_witness :
  (length (Wide.clean_filename (Wide.embed (lit "What?! - No...")))
   ≤ length (Wide.embed (lit "What?! - No...")))%nat
  ∧ Wide.clean_filename
      (Wide.embed (lit "?!") ++ Wide.CombiningDot :: Wide.embed (lit "..."))
    = [].
Proof.
  split.
  - apply (proj1 clean_filename_degenerate). by repeat constructor.
  - apply (proj2 (proj2 clean_filename_degenerate)). by repeat constructor.
Defined.

End SanitizerMore.

(** ** download_audio: what it leaves on disk *)

Section AcquirerMore.

Implicit Types (v : video) (w : world) (path name : str).

(** What [download_audio] does to the world: nothing, one error report
    printed, or one file written at a path that was free. *)
Lemma download_audio_world v w r w' :
  download_audio v w = Some (r, w') →
  w' = w
  ∨ (∃ line, w' = print line w)
  ∨ ∃ name content,
      w' = write_file (mp3 name) content w ∧ files w !! mp3 name = None.
Proof.
  unfold download_audio.
  destruct (title_error v); [intros [= <- <-]; by left|].
  unfold download_titled.
  destruct (probe _ _ _ _ _) as [[path name]|] eqn:E; [|done].
  destruct (probe_some _ _ _ _ _ _ _ E) as (-> & Hfree & _).
  unfold fetch. rewrite Hfree. simpl.
  destruct (first_audio_stream v) as [[[[content|e]]|]|e];
    intros [= <- <-]; eauto.
  right. right. exists name, content. split; [done|].
  unfold exists_path in Hfree. apply bool_decide_eq_false in Hfree.
  by apply eq_None_not_Some.
Qed.

(** Whatever the outcome, [download_audio] neither removes nor changes a file
    that was on disk, and only adds lines to the error reports. *)
Theorem download_audio_preserves_files v w r w' :
  download_audio v w = Some (r, w') →
  (∀ path content, files w !! path = Some content →
                   files w' !! path = Some content)
  ∧ ∃ lines, reports w' = reports w ++ lines.
Proof.
  unfold download_audio.
  destruct (title_error v).
  { intros [= <- <-]. split; [done|]. exists []. by rewrite app_nil_r. }
  unfold download_titled.
  destruct (probe _ _ _ _ _) as [[path name]|] eqn:E; [|done].
  destruct (probe_some _ _ _ _ _ _ _ E) as (-> & Hfree & _).
  unfold fetch. rewrite Hfree. simpl.
  assert (∀ p content, files w !! p = Some content → p ≠ mp3 name) as Hne.
  { intros p content Hp ->. unfold exists_path in Hfree.
    apply bool_decide_eq_false in Hfree. apply Hfree. by exists content. }
  destruct (first_audio_stream v) as [[[[content|e]]|]|e];
    intros [= <- <-]; simpl;
    try (split; [done|exists []; by rewrite app_nil_r]).
  - split; [|exists []; by rewrite app_nil_r].
    intros p c Hp. rewrite lookup_insert_ne; [done|].
    intros <-. by eapply Hne.
  - split; [done|]. by eexists.
Qed.

Lemma download_audio_preserves_files_witness :
  files (World (<[ lit "downloaded_audio/a_1.mp3" := lit "audio" ]>
                  {[ lit "downloaded_audio/a.mp3" := lit "old" ]}) [])
    !! lit "downloaded_audio/a.mp3"
  = Some (lit "old").
Proof.
  apply (download_audio_preserves_files (sample_video "a")
           (World {[ lit "downloaded_audio/a.mp3" := lit "old" ]} [])
           (Return (Some (lit "downloaded_audio/a_1.mp3"), Some (lit "a_1")))
           (World (<[ lit "downloaded_audio/a_1.mp3" := lit "audio" ]>
                     {[ lit "downloaded_audio/a.mp3" := lit "old" ]}) [])).
  - by vm_compute.
  - by vm_compute.
Defined.

(** A video whose title can be read and that has no audio stream:
    [ValueError], with the title in the message; no file is written and no
    error report is printed. *)
Theorem download_audio_no_stream v w :
  title_error v = None →
  first_audio_stream v = Return None →
  download_audio v w
  = Some (Raise (ValueError (lit "No audio stream found for video: " ++ title v)), w).
Proof.
  intros Ht Hv. unfold download_audio. rewrite Ht. unfold download_titled.
  destruct (probe_total w (clean_filename (title v)) (clean_filename (title v)) 1)
    as [[path name] E]. rewrite E.
  destruct (probe_some _ _ _ _ _ _ _ E) as (-> & Hfree & _).
  unfold fetch. by rewrite Hfree, Hv.
Qed.

Lemma download_audio_no_stream_witness :
  download_audio (silent_video "b") empty_disk
  = Some (Raise (ValueError (lit "No audio stream found for video: b")), empty_disk).
Proof.
  apply (download_audio_no_stream (silent_video "b") empty_disk); reflexivity.
Defined.

(** A download that succeeds puts exactly one new file on disk, with the
    content of the stream, at the path it returns. *)
Theorem download_audio_adds_one_file v w path name w' :
  download_audio v w = Some (Return (Some path, Some name), w') →
  ∃ content,
    first_audio_stream v = Return (Some (Stream (Return content)))
    ∧ files w' = <[path := content]> (files w)
    ∧ files w !! path = None
    ∧ size (files w') = S (size (files w))
    ∧ reports w' = reports w.
Proof.
  unfold download_audio. destruct (title_error v); [done|].
  unfold download_titled.
  destruct (probe _ _ _ _ _) as [[p nm]|] eqn:E; [|done].
  destruct (probe_some _ _ _ _ _ _ _ E) as (-> & Hfree & _).
  unfold fetch. rewrite Hfree. simpl.
  destruct (first_audio_stream v) as [[[[content|e]]|]|e]; try done.
  intros [= <- <- <-]. exists content.
  assert (files w !! mp3 nm = None) as Hnone.
  { unfold exists_path in Hfree. apply bool_decide_eq_false in Hfree.
    by apply eq_None_not_Some. }
  split; [done|]. split; [done|]. split; [done|]. split; [|done].
  simpl. by apply map_size_insert_None.
Qed.

Lemma download_audio_adds_one_file_witness :
  ∃ content,
    first_audio_stream (sample_video "a") = Return (Some (Stream (Return content)))
    ∧ files (write_file (mp3 (lit "a")) (lit "audio") empty_disk)
      = <[mp3 (lit "a") := content]> (files empty_disk)
    ∧ files empty_disk !! mp3 (lit "a") = None
    ∧ size (files (write_file (mp3 (lit "a")) (lit "audio") empty_disk))
      = S (size (files empty_disk))
    ∧ reports (write_file (mp3 (lit "a")) (lit "audio") empty_disk)
      = reports empty_disk.
Proof.
  apply (download_audio_adds_one_file (sample_video "a") empty_disk
           (mp3 (lit "a")) (lit "a")).
  reflexivity.
Defined.

End AcquirerMore.

(** ** The transcript file: when it is written and what it holds *)

Section AssemblerMore.

Context {float time : Type}.
Variable round : float → Z → float.

Implicit Types (segments : list (segment float)) (w : world)
  (engine : outcome (segments_obj float)).

(** When the engine call raises, or the generator raises after some of its
    segments, the function raises the same exception: the transcript file is
    not written, the segments already seen are lost, and no file and no
    error report is added. *)
Theorem no_partial_transcript audio_file_name engine
    (request_time now : time) w e :
  engine = Raise e
  ∨ (∃ yields, engine = Return (SegGenerator yields (Some e))) →
  compute_transcript_with_whisper_from_audio_func round audio_file_name
    engine request_time now w = (Raise e, w).
Proof.
  unfold compute_transcript_with_whisper_from_audio_func.
  intros [->|[yields ->]]; simpl; [done|].
  by rewrite segment_loop_spec.
Qed.


Lemma count_lines_of segments :
  (length segments ≤ count nl (lines_of segments))%nat.
Proof.
  unfold lines_of. induction segments as [|s segments IH]; simpl; [done|].
  rewrite !count_app. change (count nl [nl]) with 1%nat. lia.
Qed.

Lemma lines_of_nil segments : lines_of segments = [] ↔ segments = [].
Proof.
  split; [|by intros ->].
  intros H. pose proof (count_lines_of segments) as Hc. rewrite H in Hc.
  destruct segments; [done|]. simpl in Hc. change (count nl []) with 0%nat in Hc. lia.
Qed.

(** When the function returns its three values, the combined text it
    returns has at least one line break per metadata record, and it is empty
    exactly when there is no record. *)
Theorem combined_text_lines audio_file_name engine
    (request_time now : time) w text dicts sentences w' :
  compute_transcript_with_whisper_from_audio_func round audio_file_name
    engine request_time now w = (Return (Transcript text dicts sentences), w') →
  (length dicts ≤ count nl text)%nat ∧ (text = [] ↔ dicts = []).
Proof.
  unfold compute_transcript_with_whisper_from_audio_func.
  destruct engine as [segments|e']; [|done].
  destruct (negb (segments_truthy segments)); [done|].
  rewrite segment_loop_spec.
  destruct (segments_raises segments); [done|].
  intros [= <- <- _ _]. simpl. rewrite length_map. split.
  - apply count_lines_of.
  - rewrite lines_of_nil. split; [by intros ->|].
    by destruct (segments_items segments).
Qed.

End AssemblerMore.

Lemma no_partial_transcript_witness :
  compute_transcript_with_whisper_from_audio_func (λ x _, x) (lit "talk")
    (Return (SegGenerator [Segment 0%Z 2%Z (lit "hello") (-1)%Z]
                          (Some (Exception (lit "out of memory")))))
    0%Z 1%Z empty_disk
  = (Raise (Exception (lit "out of memory")), empty_disk).
Proof.
  apply (no_partial_transcript (float:=Z) (time:=Z)).
  right. by eexists.
Defined.

Lemma combined_text_lines_witness :
  (length [Metadata 0%Z 2%Z (lit "hello") (-1)%Z; Metadata 2%Z 3%Z (lit "you") (-2)%Z]
   ≤ count nl (lit "hello" ++ [nl] ++ lit "you" ++ [nl]))%nat.
Proof.
  apply (combined_text_lines (float:=Z) (time:=Z) (λ x _, x) (lit "talk")
           (Return (SegGenerator [Segment 0%Z 2%Z (lit "hello") (-1)%Z;
                                  Segment 2%Z 3%Z (lit "you") (-2)%Z] None))
           0%Z 1%Z empty_disk
           (lit "hello" ++ [nl] ++ lit "you" ++ [nl])
           [Metadata 0%Z 2%Z (lit "hello") (-1)%Z; Metadata 2%Z 3%Z (lit "you") (-2)%Z]
           []
           (write_file (transcript_path (lit "talk"))
                       (lit "hello" ++ [nl] ++ lit "you" ++ [nl]) empty_disk)).
  reflexivity.
Defined.


(** ** Runs of the tasks: edge cases and what a run never does *)

Section RunsMore.

Context {float time : Type}.
Variable round : float → Z → float.
Variable videos : list video.

Implicit Types (s : state) (p : phase) (i : nat) (w : world) (v : video).

Abbreviation step := (step (time:=time) round videos).
Abbreviation reachable := (reachable (time:=time) round videos).
Abbreviation run := (Runs.run (time:=time) round videos).


(** With no permit nothing ever happens: if there is a video, the run stays
    in its first state, where no task can take a step and [gather] cannot
    return. *)
Theorem zero_permits_deadlock w0 s :
  videos ≠ [] →
  reachable (init 0 videos w0) s →
  s = init 0 videos w0 ∧ returned s = false ∧ ¬ ∃ s', step s s'.
Proof.
  intros Hne.
  pose proof (stuck_without_permit (time:=time) round videos w0 Hne) as Hstuck.
  induction 1 as [|s s' _ IH Hstep].
  - done.
  - destruct IH as (-> & _ & _). exfalso. apply Hstuck. by exists s'.
Qed.

(** A task that is Done or Failed stays so for the rest of the run. *)
Theorem finished_tasks_stay s s' i p :
  reachable s s' →
  phases s !! i = Some p → terminal p = true →
  phases s' !! i = Some p.
Proof.
  intros Hreach Hi Hp. induction Hreach as [|s1 s2 _ IH Hstep]; [done|].
  destruct (step_shape _ _ _ _ Hstep)
    as [_ [(_ & -> & _)|(k & old & new & _ & Hk & -> & Hlt & _)]]; [done|].
  destruct (decide (k = i)) as [->|Hne]; [|by rewrite list_lookup_insert_ne].
  rewrite IH in Hk. injection Hk as <-. destruct p; simpl in *; try done; lia.
Qed.

Lemma remaining_at_start (vs : list video) :
  sum_list (map remaining (map (λ _, Pending) vs)) = (3 * length vs)%nat.
Proof. induction vs as [|v vs IH]; simpl; [done|]. rewrite IH. lia. Qed.

Lemma steps_left_at_start cap w0 :
  steps_left (init cap videos w0) = (1 + 3 * length videos)%nat.
Proof. unfold steps_left, init. simpl. by rewrite remaining_at_start. Qed.

(** A run has at most three steps per video and one more, the return of
    [gather]. *)
Theorem run_length_bound cap w0 n s :
  run n (init cap videos w0) s → (n ≤ 1 + 3 * length videos)%nat.
Proof.
  intros Hrun.
  assert (n + steps_left s ≤ 1 + 3 * length videos)%nat; [|lia].
  remember (init cap videos w0) as s0 eqn:Hs0.
  induction Hrun as [|n s0 s1 s2 _ IH Hstep].
  - by rewrite Hs0, steps_left_at_start.
  - specialize (IH Hs0). pose proof (step_decreases _ _ _ _ Hstep). lia.
Qed.

Lemma keeps_disk_refl w : keeps_disk w w.
Proof. split; [done|]. split; [done|]. exists []. by rewrite app_nil_r. Qed.

Lemma keeps_disk_trans w1 w2 w3 :
  keeps_disk w1 w2 → keeps_disk w2 w3 → keeps_disk w1 w3.
Proof.
  intros (H1 & H2 & l1 & H3) (H4 & H5 & l2 & H6). split; [|split].
  - intros path Hp. by apply H4, H1.
  - intros name content Hc. by apply H5, H2.
  - exists (l1 ++ l2). by rewrite H6, H3, (assoc_L (++)).
Qed.

Lemma keeps_disk_print line w : keeps_disk w (print line w).
Proof. split; [done|]. split; [done|]. by eexists. Qed.

Lemma keeps_disk_write_free name content w :
  files w !! mp3 name = None → keeps_disk w (write_file (mp3 name) content w).
Proof.
  intros Hfree. unfold write_file. split; [|split]; simpl.
  - intros path [c Hc]. exists c. rewrite lookup_insert_ne; [done|].
    intros <-. congruence.
  - intros nm c Hc. rewrite lookup_insert_ne; [done|]. intros E.
    rewrite E in Hfree. congruence.
  - exists []. by rewrite app_nil_r.
Qed.

Lemma keeps_disk_write_transcript audio_file_name text w :
  keeps_disk w (write_file (transcript_path audio_file_name) text w).
Proof.
  unfold write_file. split; [|split]; simpl.
  - intros path Hp.
    destruct (decide (path = transcript_path audio_file_name)) as [->|Hne].
    + by rewrite lookup_insert_eq.
    + by rewrite lookup_insert_ne.
  - intros name c Hc. by rewrite lookup_insert_ne.
  - exists []. by rewrite app_nil_r.
Qed.

Lemma transcript_world audio_file_name (engine : outcome (segments_obj float))
    (request_time now : time) w r w' :
  compute_transcript_with_whisper_from_audio_func round audio_file_name
    engine request_time now w = (r, w') →
  w' = w ∨ ∃ text, w' = write_file (transcript_path audio_file_name) text w.
Proof.
  unfold compute_transcript_with_whisper_from_audio_func.
  destruct engine as [segments|e]; [|intros [= <- <-]; by left].
  destruct (negb (segments_truthy segments)); [intros [= <- <-]; by left|].
  destruct (segment_loop _ _ _ _) as [text dicts].
  destruct (segments_raises segments); intros [= <- <-]; [by left|].
  right. by exists text.
Qed.

Lemma step_keeps_disk s s' : step s s' → keeps_disk (env s) (env s').
Proof.
  assert (∀ v w r w', download_audio v w = Some (r, w') → keeps_disk w w') as Hd.
  { intros v w r w' [->|[[line ->]|(name & content & -> & Hfree)]]%download_audio_world.
    - apply keeps_disk_refl.
    - apply keeps_disk_print.
    - by apply keeps_disk_write_free. }
  assert (∀ n (engine : outcome (segments_obj float)) (t1 t2 : time) w r w',
            compute_transcript_with_whisper_from_audio_func round n engine t1 t2 w
            = (r, w') → keeps_disk w w') as Ht.
  { intros n engine t1 t2 w r w' [->|[text ->]]%transcript_world.
    - apply keeps_disk_refl.
    - apply keeps_disk_write_transcript. }
  destruct 1; simpl; eauto using keeps_disk_refl;
    (eapply keeps_disk_trans; [|apply keeps_disk_print]); eauto.
Qed.

(** In the course of a run no file is removed, an audio file that is on disk
    is never changed, and the error reports only grow. *)
Theorem run_keeps_disk s s' :
  reachable s s' →
  (∀ path, is_Some (files (env s) !! path) → is_Some (files (env s') !! path))
  ∧ (∀ name content, files (env s) !! mp3 name = Some content →
                     files (env s') !! mp3 name = Some content)
  ∧ ∃ lines, reports (env s') = reports (env s) ++ lines.
Proof.
  intros Hreach. change (keeps_disk (env s) (env s')).
  induction Hreach as [|s1 s2 _ IH Hstep].
  - apply keeps_disk_refl.
  - eapply keeps_disk_trans; [done|]. by apply step_keeps_disk.
Qed.

End RunsMore.

(** ** is_single_video and the device choice *)

Section Glue.

Implicit Types (sub s url a b : str).

Lemma has_prefix_self sub b : has_prefix sub (sub ++ b) = true.
Proof.
  induction sub as [|c sub IH]; simpl; [done|].
  by rewrite bool_decide_eq_true_2, IH.
Qed.

Lemma contains_unfold sub s :
  contains sub s
  = has_prefix sub s || match s with [] => false | _ :: r => contains sub r end.
Proof. by destruct s. Qed.

Lemma contains_spec sub s : contains sub s = true ↔ ∃ a b, s = a ++ sub ++ b.
Proof.
  split.
  - induction s as [|c s IH]; rewrite contains_unfold.
    + rewrite orb_false_r. intros [b Hb]%has_prefix_app. by exists [], b.
    + intros [[b Hb]%has_prefix_app|(a & b & ->)%IH]%orb_prop.
      * by exists [], b.
      * by exists (c :: a), b.
  - intros (a & b & ->). induction a as [|c a IH]; simpl app;
      rewrite contains_unfold.
    + by rewrite has_prefix_self.
    + by rewrite IH, orb_true_r.
Qed.

(** A URL is taken for a playlist exactly when the word playlist occurs
    somewhere in it, whatever stands around it. *)
Theorem is_single_video_spec url :
  is_single_video url = false ↔ ∃ a b, url = a ++ lit "playlist" ++ b.
Proof.
  unfold is_single_video. rewrite negb_false_iff. apply contains_spec.
Qed.

(** From the flag of [main] to the device: the GPU, with float16, is chosen
    exactly when the flag is given and CUDA is available; in every other case
    the CPU is, with compute type auto. *)
Theorem gpu_needs_flag_and_cuda (cuda_is_available cuda : bool) :
  (select_device cuda_is_available (main_disable_cuda_override cuda)
   = (lit "cuda", lit "float16")
   ↔ cuda_is_available = true ∧ cuda = true)
  ∧ (select_device cuda_is_available (main_disable_cuda_override cuda)
     = (lit "cpu", lit "auto")
     ↔ cuda_is_available = false ∨ cuda = false).
Proof.
  unfold select_device, main_disable_cuda_override.
  destruct cuda_is_available, cuda; cbn; intuition discriminate.
Qed.

End Glue.

(** ** add_to_system_path *)

Section SystemPathFacts.
Import SystemPath.

Implicit Types (sep : ascii) (p cur s path new_path platform : str)
  (environ : gmap str str).

Lemma split_go_entry sep cur p s :
  sep ∉ p → split_go sep cur (p ++ sep :: s) = (rev cur ++ p) :: split_go sep [] s.
Proof.
  revert cur. induction p as [|c p IH]; intros cur Hp; simpl.
  - by rewrite bool_decide_eq_true_2, app_nil_r.
  - apply not_elem_of_cons in Hp as [Hc Hp].
    rewrite bool_decide_eq_false_2 by done. rewrite IH by done.
    simpl. by rewrite <-(assoc_L (++)).
Qed.

Lemma split_first sep p s : sep ∉ p → split sep (p ++ sep :: s) = p :: split sep s.
Proof. intros Hp. unfold split. by rewrite split_go_entry. Qed.

Lemma split_go_no_sep sep cur s :
  sep ∉ cur → Forall (λ e, sep ∉ e) (split_go sep cur s).
Proof.
  revert cur. induction s as [|c s IH]; intros cur Hcur; simpl.
  - constructor; [|constructor]. by rewrite list_elem_of_In, <-in_rev, <-list_elem_of_In.
  - destruct (decide (c = sep)) as [->|Hne].
    + rewrite bool_decide_eq_true_2 by done. constructor.
      * by rewrite list_elem_of_In, <-in_rev, <-list_elem_of_In.
      * apply IH. apply not_elem_of_nil.
    + rewrite bool_decide_eq_false_2 by done. apply IH.
      apply not_elem_of_cons. split; [by intros ->|done].
Qed.

(** No entry of a split holds the separator. *)
Lemma split_no_sep sep s : Forall (λ e, sep ∉ e) (split sep s).
Proof. apply split_go_no_sep, not_elem_of_nil. Qed.

(** Without a PATH variable the call ends in a KeyError. *)
Theorem add_to_system_path_missing platform sep new_path environ :
  environ !! lit "PATH" = None ↔
  add_to_system_path platform sep new_path environ = KeyError (lit "PATH").
Proof.
  unfold add_to_system_path. split.
  - by intros ->.
  - destruct (environ !! lit "PATH") as [path|] eqn:E; [|done].
    cbv zeta.
    destruct (_ && _ && _ && _); [|done].
    destruct (negb _); [by rewrite lookup_insert_eq|by rewrite E].
Qed.

(** Outside the quoting branch, with a directory that does not hold the
    separator: the directory is put in front of PATH if it is not yet one of
    its entries, and PATH is left alone otherwise; either way the directory
    is an entry afterwards, the old entries are still there in their order,
    no other variable changes, and a second call changes nothing. *)
Theorem add_to_system_path_adds_once platform sep new_path environ path :
  environ !! lit "PATH" = Some path →
  unquoted_case platform new_path →
  sep ∉ new_path →
  ∃ path',
    add_to_system_path platform sep new_path environ
    = Environ (<[lit "PATH" := path']> environ)
    ∧ new_path ∈ split sep path'
    ∧ (if bool_decide (new_path ∈ split sep path)
       then path' = path
       else path' = new_path ++ sep :: path
            ∧ split sep path' = new_path :: split sep path)
    ∧ add_to_system_path platform sep new_path (<[lit "PATH" := path']> environ)
      = Environ (<[lit "PATH" := path']> environ).
Proof.
  intros Hpath Hunq Hsep. unfold unquoted_case in Hunq.
  assert (∀ path', new_path ∈ split sep path' →
            add_to_system_path platform sep new_path (<[lit "PATH" := path']> environ)
            = Environ (<[lit "PATH" := path']> environ)) as Hidem.
  { intros path' Hin. unfold add_to_system_path.
    rewrite lookup_insert_eq. cbv zeta.
    by rewrite Hunq, (bool_decide_eq_true_2 _ Hin). }
  destruct (decide (new_path ∈ split sep path)) as [Hin|Hout].
  - exists path. rewrite (bool_decide_eq_true_2 _ Hin).
    split; [|split; [done|split; [done|by apply Hidem]]].
    rewrite <-(Hidem path Hin). by rewrite insert_id.
  - exists (new_path ++ sep :: path). rewrite (bool_decide_eq_false_2 _ Hout).
    assert (split sep (new_path ++ sep :: path) = new_path :: split sep path)
      as Hsplit by by apply split_first.
    assert (new_path ∈ split sep (new_path ++ sep :: path)) as Hin.
    { rewrite Hsplit. by left. }
    split; [|split; [done|split; [done|by apply Hidem]]].
    unfold add_to_system_path. rewrite Hpath. cbv zeta.
    by rewrite Hunq, (bool_decide_eq_false_2 _ Hout).
Qed.

(** A directory that holds the separator is never found among the entries:
    outside the quoting branch every call puts it in front of PATH again. *)
Theorem add_to_system_path_with_separator platform sep new_path environ path :
  environ !! lit "PATH" = Some path →
  unquoted_case platform new_path →
  sep ∈ new_path →
  add_to_system_path platform sep new_path environ
  = Environ (<[lit "PATH" := new_path ++ sep :: path]> environ).
Proof.
  intros Hpath Hunq Hsep. unfold unquoted_case in Hunq.
  unfold add_to_system_path. rewrite Hpath. cbv zeta. rewrite Hunq.
  rewrite bool_decide_eq_false_2; [done|].
  intros Hin. pose proof (split_no_sep sep path) as Hall.
  rewrite Forall_forall in Hall. by apply (Hall new_path).
Qed.

End SystemPathFacts.

(** ** Instances *)


Lemma zero_permits_deadlock_witness :
  returned (init 0 [sample_video "a"] empty_disk) = false.
Proof.
  apply (zero_permits_deadlock (float:=Z) (time:=Z) (λ x _, x)
           [sample_video "a"] empty_disk (init 0 [sample_video "a"] empty_disk)).
  - discriminate.
  - apply reach_init.
Defined.

(** The first task has ended; the download of the second video raises, its
    task fails, and [gather] returns. *)
Lemma finished_tasks_stay_witness :
  phases
    (State 1 [Done; Failed]
       (print (lit "Error processing video b: No audio stream found for video: b")
              empty_disk) true) !! 0%nat
  = Some Done.
Proof.
  apply (finished_tasks_stay (float:=Z) (time:=Z) (λ x _, x)
           [sample_video "a"; silent_video "b"]
           (State 0 [Done; Downloading] empty_disk false)
           (State 1 [Done; Failed]
              (print (lit "Error processing video b: No audio stream found for video: b")
                     empty_disk) true) 0%nat Done).
  - eapply reach_step
      with (s := State 1 [Done; Failed]
                   (print (lit "Error processing video b: No audio stream found for video: b")
                          empty_disk) false).
    + eapply reach_step; [apply reach_init|].
      by apply (step_download_raise _ _ 1%nat (silent_video "b")
                  (State 0 [Done; Downloading] empty_disk false)
                  (ValueError (lit "No audio stream found for video: b"))
                  empty_disk).
    + apply (step_return _ _
               (State 1 [Done; Failed]
                  (print (lit "Error processing video b: No audio stream found for video: b")
                         empty_disk) false)); [done|].
      by repeat constructor.
  - reflexivity.
  - reflexivity.
Defined.

Lemma run_length_bound_witness : (1 ≤ 1 + 3 * length [sample_video "a"])%nat.
Proof.
  eapply (run_length_bound (float:=Z) (time:=Z) (λ x _, x)
            [sample_video "a"] 1 empty_disk 1).
  eapply Runs.run_step; [apply Runs.run_nil|].
  apply (step_acquire _ _ 0%nat); [done|done|simpl; lia].
Defined.

(** An audio file of the name is on disk; the video is downloaded, to the
    next free name, and transcribed. *)
Lemma run_keeps_disk_witness :
  files
    (write_file (transcript_path (lit "a_1")) (lit "hello" ++ [nl])
       (write_file (mp3 (lit "a_1")) (lit "audio")
          (World {[ mp3 (lit "a") := lit "old" ]} [])))
    !! mp3 (lit "a")
  = Some (lit "old").
Proof.
  destruct (run_keeps_disk (float:=Z) (time:=Z) (λ x _, x) [sample_video "a"]
              (State 0 [Downloading] (World {[ mp3 (lit "a") := lit "old" ]} []) false)
              (State 1 [Done]
                 (write_file (transcript_path (lit "a_1")) (lit "hello" ++ [nl])
                    (write_file (mp3 (lit "a_1")) (lit "audio")
                       (World {[ mp3 (lit "a") := lit "old" ]} [])))
                 false))
    as (_ & Hkept & _).
  - eapply reach_step
      with (s := State 0 [Transcribing (lit "a_1")]
                   (write_file (mp3 (lit "a_1")) (lit "audio")
                      (World {[ mp3 (lit "a") := lit "old" ]} []))
                   false).
    + eapply reach_step; [apply reach_init|].
      apply (step_download_ok _ _ 0%nat (sample_video "a")
               (State 0 [Downloading] (World {[ mp3 (lit "a") := lit "old" ]} []) false)
               (Some (mp3 (lit "a_1")), Some (lit "a_1"))
               (write_file (mp3 (lit "a_1")) (lit "audio")
                  (World {[ mp3 (lit "a") := lit "old" ]} []))
               (lit "a_1")); done.
    + apply (step_transcribe_ok _ _ 0%nat (sample_video "a")
               (State 0 [Transcribing (lit "a_1")]
                  (write_file (mp3 (lit "a_1")) (lit "audio")
                     (World {[ mp3 (lit "a") := lit "old" ]} []))
                  false)
               (lit "a_1")
               (Return (SegGenerator [Segment 0%Z 2%Z (lit "hello") (-1)%Z] None))
               0%Z 1%Z
               (Transcript (lit "hello" ++ [nl])
                           [Metadata 0%Z 2%Z (lit "hello") (-1)%Z] [])); done.
  - apply (Hkept (lit "a") (lit "old")). by vm_compute.
Defined.

Lemma add_to_system_path_adds_once_witness :
  ∃ path',
    SystemPath.add_to_system_path (lit "linux") ":"%char (lit "/opt/cuda")
      {[ lit "PATH" := lit "/usr/bin:/bin" ]}
    = SystemPath.Environ (<[lit "PATH" := path']> {[ lit "PATH" := lit "/usr/bin:/bin" ]})
    ∧ lit "/opt/cuda" ∈ SystemPath.split ":"%char path'.
Proof.
  destruct (add_to_system_path_adds_once (lit "linux") ":"%char (lit "/opt/cuda")
              {[ lit "PATH" := lit "/usr/bin:/bin" ]} (lit "/usr/bin:/bin"))
    as (path' & H1 & H2 & _).
  - by vm_compute.
  - reflexivity.
  - apply (bool_decide_unpack _). by vm_compute.
  - by exists path'.
Defined.

Lemma add_to_system_path_with_separator_witness :
  SystemPath.add_to_system_path (lit "linux") ":"%char (lit "/a:/b")
    {[ lit "PATH" := lit "/a:/b:/bin" ]}
  = SystemPath.Environ
      (<[lit "PATH" := lit "/a:/b" ++ ":"%char :: lit "/a:/b:/bin"]>
         {[ lit "PATH" := lit "/a:/b:/bin" ]}).
Proof.
  apply add_to_system_path_with_separator.
  - by vm_compute.
  - reflexivity.
  - apply (bool_decide_unpack _). by vm_compute.
Defined.
